(** * In-memory search engine: inverted index, datasets, conjunctive search

    Shallow embedding of the core classes of [src/app.py] and [src/main.py]
    ([Document], [InvertedIndex], [Dataset], [KeySortStrategy],
    [SearchEngine]) and proofs of their specified properties.

    Modelling conventions.
    - A Python [str] is a [string] whose characters are the code points
      below 256 (Latin-1); [str.lower] and [str.split] follow CPython on that
      range.
    - A Python [int] is a [Z].
    - A [dict] is a [gmap]; a [set] of ints is a [gset Z] living in a heap of
      set objects, because posting sets are mutated in place
      ([set.add], [set.intersection_update]) and reached through references.
    - Iterating over a set yields its elements once each in an order the
      language does not fix: a [SetOrder], over which the statements
      quantify.
    - A method that mutates or raises is a function from the state before to
      an [outcome] paired with the state after.
    - The classes [Document], [InvertedIndex], [Dataset] and the method
      [SearchEngine.create_dataset] have the same text in both files and are
      embedded once; what differs ([KeySortStrategy.sort],
      [SearchEngine.insert_document] in its message, [SearchEngine.search])
      is embedded per file in the modules [App] and [Main]. *)

From Stdlib Require Import ZArith NArith Ascii String List.
From stdpp Require Import gmap strings list sorting.

#[local] Set Warnings "-clear-no-such-hyp".

Open Scope Z_scope.
Open Scope string_scope.

(** ** Python strings *)

Definition code (c : ascii) : N := N_of_ascii c.

(** [str.isspace] on the code points below 256: TAB..CR, FS..US, SPACE,
    NEL (0x85) and NBSP (0xA0). *)
Definition isspace (c : ascii) : bool :=
  let n := code c in
  ((9 <=? n) && (n <=? 13) || (28 <=? n) && (n <=? 32)
   || (n =? 133) || (n =? 160))%N.

(** [str.isupper] for a single cased code point below 256: A..Z and the
    Latin-1 capitals 0xC0..0xDE without the multiplication sign 0xD7. *)
Definition isupper (c : ascii) : bool :=
  let n := code c in
  ((65 <=? n) && (n <=? 90)
   || (192 <=? n) && (n <=? 222) && negb (n =? 215))%N.

Definition lower_char (c : ascii) : ascii :=
  if isupper c then ascii_of_N (code c + 32) else c.

(** [s.lower()] *)
Fixpoint lower (s : string) : string :=
  match s with
  | EmptyString => EmptyString
  | String c s' => String (lower_char c) (lower s')
  end.

(** [s.split()] with no separator: maximal runs of non-whitespace, in order.
    [tok] is the run read so far. *)
Fixpoint split_from (tok : string) (s : string) : list string :=
  match s with
  | EmptyString => if decide (tok = EmptyString) then [] else [tok]
  | String c s' =>
      if isspace c
      then (if decide (tok = EmptyString) then split_from EmptyString s'
            else tok :: split_from EmptyString s')
      else split_from (tok +:+ String c EmptyString) s'
  end.

Definition split (s : string) : list string := split_from EmptyString s.

(** [bool(s)] for an optional string: [None] and the empty string are falsy. *)
Definition truthy (o : option string) : bool :=
  match o with
  | Some (String _ _) => true
  | _ => false
  end.

(** ** Exceptions and outcomes *)

Inductive exn : Type :=
  | ValueError (msg : string)
  | KeyError (key : Z)
  | IndexError
  | NotImplementedError (msg : string).

Inductive outcome (A : Type) : Type :=
  | Returns (a : A)
  | Raises (e : exn).
Arguments Returns {A} a.
Arguments Raises {A} e.

(** ** The heap of set objects *)

Definition loc := positive.
Abbreviation set_heap := (gmap loc (gset Z)).

(** The contents of the set object at [l]. *)
Definition set_at (h : set_heap) (l : loc) : gset Z := default ∅ (h !! l).

(** [set()] *)
Definition set_new (h : set_heap) : loc * set_heap :=
  let l := fresh (dom h) in (l, <[l := ∅]> h).

(** [s.copy()] *)
Definition set_copy (h : set_heap) (l : loc) : loc * set_heap :=
  let l' := fresh (dom h) in (l', <[l' := set_at h l]> h).

(** [s.add(x)] *)
Definition set_add (h : set_heap) (l : loc) (x : Z) : set_heap :=
  <[l := {[x]} ∪ set_at h l]> h.

(** [s.intersection_update(t)] *)
Definition set_intersection_update (h : set_heap) (l t : loc) : set_heap :=
  <[l := set_at h l ∩ set_at h t]> h.

(** Iteration over a set object visits every element once, in an order the
    language leaves open. *)
Record SetOrder : Type := {
  set_iter : gset Z → list Z;
  set_iter_perm : ∀ s, set_iter s ≡ₚ elements s
}.

(** ** Document *)

Record Document : Type := mkDocument {
  doc_id : Z;
  content : string;
  meta_data : gmap string string
}.

(** [Document.__init__] *)
Definition Document_init (doc_id : Z) (content : string)
    (metaData : gmap string string) : Document :=
  mkDocument doc_id (lower content) metaData.

(** [Document.get_key_value] *)
Definition get_key_value (d : Document) (key : string) : string :=
  default EmptyString (meta_data d !! key).

(** ** InvertedIndex *)

Record InvertedIndex : Type := mkInvertedIndex {
  index : gmap string loc
}.

(** [InvertedIndex.__init__] *)
Definition InvertedIndex_init : InvertedIndex := mkInvertedIndex ∅.

(** The posting set a term denotes: the set object it refers to, the empty
    set when the term is not a key. *)
Definition posting (h : set_heap) (ix : InvertedIndex) (term : string) : gset Z :=
  match index ix !! term with
  | Some l => set_at h l
  | None => ∅
  end.

(** Every reference held by the index points to an allocated set object. *)
Definition index_wf (h : set_heap) (ix : InvertedIndex) : Prop :=
  ∀ t l, index ix !! t = Some l → l ∈ dom h.

(** Distinct terms refer to distinct set objects. *)
Definition index_inj (ix : InvertedIndex) : Prop :=
  ∀ t1 t2 l, index ix !! t1 = Some l → index ix !! t2 = Some l → t1 = t2.

(** One iteration of the loop of [InvertedIndex.addDocument]. *)
Definition add_word (doc_id : Z) (st : set_heap * InvertedIndex) (word : string)
    : set_heap * InvertedIndex :=
  let '(h, ix) := st in
  let '(h1, ix1) :=
    match index ix !! word with
    | None => let '(l, h') := set_new h in (h', mkInvertedIndex (<[word := l]> (index ix)))
    | Some _ => (h, ix)
    end in
  match index ix1 !! word with
  | Some l => (set_add h1 l doc_id, ix1)
  | None => (h1, ix1)
  end.

(** The effect of adding [doc_id] under the words [ws], from [(h, ix)] to
    [(h', ix')]: postings grow by [doc_id] exactly under [ws], set objects
    the index does not refer to are left alone, and new references are
    fresh. *)
Record index_grows (doc_id : Z) (ws : list string)
    (h : set_heap) (ix : InvertedIndex) (h' : set_heap) (ix' : InvertedIndex) : Prop := {
  grows_wf : index_wf h' ix';
  grows_inj : index_inj ix';
  grows_dom : dom h ⊆ dom h';
  grows_posting : ∀ t,
    posting h' ix' t = posting h ix t ∪ (if decide (t ∈ ws) then {[doc_id]} else ∅);
  grows_frame : ∀ l, l ∈ dom h → (∀ t, index ix !! t ≠ Some l) → h' !! l = h !! l;
  grows_new : ∀ t l,
    index ix' !! t = Some l → index ix !! t = Some l ∨ ((l ∉ dom h) ∧ t ∈ ws);
  grows_old : ∀ t l, index ix !! t = Some l → index ix' !! t = Some l
}.

(** [InvertedIndex.addDocument] *)
Definition InvertedIndex_addDocument (h : set_heap) (ix : InvertedIndex)
    (doc_id : Z) (content : string) : set_heap * InvertedIndex :=
  let words := split (lower content) in
  fold_left (add_word doc_id) words (h, ix).

(** [self.index.get(word, set())]: the default [set()] is built before the
    lookup. *)
Definition index_get (h : set_heap) (ix : InvertedIndex) (word : string)
    : loc * set_heap :=
  let '(d, h') := set_new h in
  (default d (index ix !! word), h').

(** One iteration of the loop of [InvertedIndex.search]. *)
Definition intersect_word (ix : InvertedIndex) (result_set : loc)
    (h : set_heap) (word : string) : set_heap :=
  let '(t, h') := index_get h ix word in
  set_intersection_update h' result_set t.

(** [InvertedIndex.search]: the reference to the result set and the heap
    after the call. *)
Definition InvertedIndex_search (h : set_heap) (ix : InvertedIndex)
    (search_words : list string) : loc * set_heap :=
  match search_words with
  | [] => set_new h
  | first :: rest =>
      let '(seed, h0) := index_get h ix first in
      let '(result_set, h1) := set_copy h0 seed in
      (result_set, fold_left (intersect_word ix result_set) rest h1)
  end.

(** ** Dataset *)

Record Dataset : Type := mkDataset {
  documents : gmap Z Document;
  inverted_index : InvertedIndex
}.

(** [Dataset.__init__] *)
Definition Dataset_init : Dataset := mkDataset ∅ InvertedIndex_init.

(** [Dataset.addDocument] *)
Definition Dataset_addDocument (h : set_heap) (d : Dataset) (doc_id : Z)
    (document : Document) : set_heap * Dataset :=
  let docs := <[doc_id := document]> (documents d) in
  let '(h', ix) := InvertedIndex_addDocument h (inverted_index d) doc_id (content document) in
  (h', mkDataset docs ix).

(** [Dataset.gte_document_by_id] *)
Definition gte_document_by_id (d : Dataset) (doc_id : Z) : outcome Document :=
  match documents d !! doc_id with
  | Some doc => Returns doc
  | None => Raises (KeyError doc_id)
  end.

(** [DatasetFactory.createDataset] *)
Definition createDataset : Dataset := Dataset_init.

(** ** SortStrategy *)

Inductive SortStrategy : Type :=
  | SortStrategy_base
  | KeySortStrategy.

Record SearchResult : Type := mkSearchResult {
  document : Document
}.

(** The key function of the sort: [lambda x: x.document.get_key_value(inp_key)]. *)
Definition sort_key (inp_key : string) (x : SearchResult) : string :=
  get_key_value (document x) inp_key.

(** [str.__lt__]: lexicographic comparison of code points. *)
Definition str_lt (a b : string) : bool := String.ltb a b.

(** [a ≤ b] on keys: [b] is not smaller than [a]. *)
Definition str_le (a b : string) : Prop := str_lt b a = false.

Definition key_le {A : Type} (f : A → string) (x y : A) : Prop := str_le (f x) (f y).

(** The builtin [sorted(results, key=f)]: a stable ascending sort that
    compares keys with [<] only.  An element is placed in front of the first
    later element whose key is not smaller than its own. *)
Fixpoint sorted_insert {A : Type} (f : A → string) (x : A) (l : list A) : list A :=
  match l with
  | [] => [x]
  | y :: l' => if str_lt (f y) (f x) then y :: sorted_insert f x l' else x :: y :: l'
  end.

Definition sorted {A : Type} (f : A → string) (l : list A) : list A :=
  foldr (sorted_insert f) [] l.

(** ** SearchEngine *)

Record SearchEngine : Type := mkSearchEngine {
  datasets : gmap string Dataset;
  sort_strategy : SortStrategy;
  next_doc_id : Z
}.

(** [SearchEngine.__init__] *)
Definition SearchEngine_init : SearchEngine := mkSearchEngine ∅ KeySortStrategy 1.

(** The program state: the set objects and the singleton engine. *)
Record State : Type := mkState {
  heap : set_heap;
  engine : SearchEngine
}.

Definition initial_state : State := mkState ∅ SearchEngine_init.

(** [SearchEngine.create_dataset] (the same text in both files). *)
Definition create_dataset (st : State) (name : string) : State :=
  let e := engine st in
  match datasets e !! name with
  | None =>
      mkState (heap st)
        (mkSearchEngine (<[name := createDataset]> (datasets e)) (sort_strategy e) (next_doc_id e))
  | Some _ => st
  end.

(** The list comprehension / loop that turns matching ids into results:
    the first id without a stored document raises. *)
Fixpoint materialize (dataset : Dataset) (ids : list Z) : outcome (list SearchResult) :=
  match ids with
  | [] => Returns []
  | doc_id :: ids' =>
      match gte_document_by_id dataset doc_id with
      | Raises e => Raises e
      | Returns doc =>
          match materialize dataset ids' with
          | Raises e => Raises e
          | Returns results => Returns (mkSearchResult doc :: results)
          end
      end
  end.

(** The calls a client can make, and what it sees back. *)
Inductive op : Type :=
  | Create (name : string)
  | Insert (dataset_name content : string) (metaData : gmap string string)
  | Query (dataset_name search_patterns : string) (order_by_key : option string).

Inductive response : Type :=
  | Done
  | Found (results : list SearchResult)
  | Failed (e : exn).

Definition response_of_insert (r : outcome unit) : response :=
  match r with Returns _ => Done | Raises e => Failed e end.

Definition response_of_search (r : outcome (list SearchResult)) : response :=
  match r with Returns rs => Found rs | Raises e => Failed e end.

(** The state after a sequence of calls, and the number of insertions among
    them that succeeded, for a given interpretation of one call. *)
Definition run_with (exec : State → op → response * State) (st : State)
    (ops : list op) : State :=
  fold_left (λ st c, (exec st c).2) ops st.

Definition is_insertion (c : op) (r : response) : bool :=
  match c, r with
  | Insert _ _ _, Done => true
  | _, _ => false
  end.

Fixpoint inserted_with (exec : State → op → response * State) (st : State)
    (ops : list op) : nat :=
  match ops with
  | [] => 0%nat
  | c :: ops' =>
      let '(r, st') := exec st c in
      ((if is_insertion c r then 1 else 0) + inserted_with exec st' ops')%nat
  end.

(** The value of the set [InvertedIndex.search] returns. *)
Definition search_result (h : set_heap) (ix : InvertedIndex) (terms : list string)
    : gset Z :=
  let '(r, h') := InvertedIndex_search h ix terms in set_at h' r.

(** The dataset holding documents 1: "a b", 2: "b c", 3: "a c". *)
Definition abc_dataset : set_heap * Dataset :=
  let '(h, d) := Dataset_addDocument ∅ Dataset_init 1 (Document_init 1 "a b" ∅) in
  let '(h, d) := Dataset_addDocument h d 2 (Document_init 2 "b c" ∅) in
  Dataset_addDocument h d 3 (Document_init 3 "a c" ∅).

Definition abc_search (query : string) : gset Z :=
  search_result abc_dataset.1 (inverted_index abc_dataset.2) (split (lower query)).

(** *** src/app.py *)
Module App.

(** [SortStrategy.sort] *)
Definition SortStrategy_sort (results : list SearchResult) (key : string)
    : outcome (list SearchResult) :=
  Raises (NotImplementedError "Sort strategy must implement sort method").

(** [KeySortStrategy.sort] *)
Definition KeySortStrategy_sort (results : list SearchResult) (inp_key : string)
    : outcome (list SearchResult) :=
  Returns (sorted (sort_key inp_key) results).

(** [self.sort_strategy.sort(...)], by the class of the strategy object. *)
Definition sort_with (s : SortStrategy) (results : list SearchResult) (key : string)
    : outcome (list SearchResult) :=
  match s with
  | SortStrategy_base => SortStrategy_sort results key
  | KeySortStrategy => KeySortStrategy_sort results key
  end.

Definition not_found (dataset_name : string) : exn :=
  ValueError ("Dataset '" +:+ dataset_name +:+ "' does not exist.").

(** [SearchEngine.insert_document] *)
Definition insert_document (st : State) (dataset_name content : string)
    (metaData : gmap string string) : outcome unit * State :=
  let e := engine st in
  match datasets e !! dataset_name with
  | Some dataset =>
      let doc := Document_init (next_doc_id e) content metaData in
      let '(h', dataset') := Dataset_addDocument (heap st) dataset (next_doc_id e) doc in
      (Returns tt,
       mkState h'
         (mkSearchEngine (<[dataset_name := dataset']> (datasets e)) (sort_strategy e)
            (next_doc_id e + 1)))
  | None => (Raises (not_found dataset_name), st)
  end.

(** [SearchEngine.search] *)
Definition search (o : SetOrder) (st : State) (dataset_name search_patterns : string)
    (order_by_key : option string) : outcome (list SearchResult) * State :=
  let e := engine st in
  match datasets e !! dataset_name with
  | None => (Raises (not_found dataset_name), st)
  | Some dataset =>
      let search_words := split (lower search_patterns) in
      let '(matching_doc_ids, h') :=
        InvertedIndex_search (heap st) (inverted_index dataset) search_words in
      let st' := mkState h' e in
      match materialize dataset (set_iter o (set_at h' matching_doc_ids)) with
      | Raises err => (Raises err, st')
      | Returns results =>
          if truthy order_by_key
          then (sort_with (sort_strategy e) results (default EmptyString order_by_key), st')
          else (Returns results, st')
      end
  end.

Definition exec (o : SetOrder) (st : State) (c : op) : response * State :=
  match c with
  | Create name => (Done, create_dataset st name)
  | Insert n c m => let '(r, st') := insert_document st n c m in (response_of_insert r, st')
  | Query n q k => let '(r, st') := search o st n q k in (response_of_search r, st')
  end.

Definition run (o : SetOrder) : State → list op → State := run_with (exec o).
Definition inserted (o : SetOrder) : State → list op → nat := inserted_with (exec o).

End App.

(** *** src/main.py *)
Module Main.

(** [SortStrategy.sort] *)
Definition SortStrategy_sort (results : list SearchResult) (key : string)
    : outcome (list SearchResult) :=
  Raises (NotImplementedError "Sort strategy must  implemented sort method").

(** [KeySortStrategy.sort]: [print(results[0].document)] comes first. *)
Definition KeySortStrategy_sort (results : list SearchResult) (inp_key : string)
    : outcome (list SearchResult) :=
  match results with
  | [] => Raises IndexError
  | _ :: _ => Returns (sorted (sort_key inp_key) results)
  end.

Definition not_found (dataset_name : string) : exn :=
  ValueError ("Dataset '" +:+ dataset_name +:+ " does not exists.").

(** [SearchEngine.insert_document] *)
Definition insert_document (st : State) (dataset_name content : string)
    (metaData : gmap string string) : outcome unit * State :=
  let e := engine st in
  match datasets e !! dataset_name with
  | Some dataset =>
      let doc := Document_init (next_doc_id e) content metaData in
      let '(h', dataset') := Dataset_addDocument (heap st) dataset (next_doc_id e) doc in
      (Returns tt,
       mkState h'
         (mkSearchEngine (<[dataset_name := dataset']> (datasets e)) (sort_strategy e)
            (next_doc_id e + 1)))
  | None => (Raises (not_found dataset_name), st)
  end.

(** [SearchEngine.search]: the call of the sort strategy is commented out,
    [order_by_key] is not read. *)
Definition search (o : SetOrder) (st : State) (dataset_name search_pattens : string)
    (order_by_key : option string) : outcome (list SearchResult) * State :=
  let e := engine st in
  match datasets e !! dataset_name with
  | None => (Raises (not_found dataset_name), st)
  | Some dataset =>
      let search_words := split (lower search_pattens) in
      let '(matching_doc_ids, h') :=
        InvertedIndex_search (heap st) (inverted_index dataset) search_words in
      let st' := mkState h' e in
      (materialize dataset (set_iter o (set_at h' matching_doc_ids)), st')
  end.

Definition exec (o : SetOrder) (st : State) (c : op) : response * State :=
  match c with
  | Create name => (Done, create_dataset st name)
  | Insert n c m => let '(r, st') := insert_document st n c m in (response_of_insert r, st')
  | Query n q k => let '(r, st') := search o st n q k in (response_of_search r, st')
  end.

Definition run (o : SetOrder) : State → list op → State := run_with (exec o).
Definition inserted (o : SetOrder) : State → list op → nat := inserted_with (exec o).

End Main.

(** ** Invariants *)

(** The dataset invariant: postings and stored contents agree, postings only
    name stored documents, and no stored term has an empty posting set. *)
Definition dataset_invariant (h : set_heap) (d : Dataset) : Prop :=
  (∀ id t, id ∈ posting h (inverted_index d) t
           ↔ ∃ doc, documents d !! id = Some doc
                    ∧ t ∈ split (content doc) ∧ lower t = t)
  ∧ (∀ id t, id ∈ posting h (inverted_index d) t → id ∈ dom (documents d))
  ∧ (∀ t, t ∈ dom (index (inverted_index d)) → posting h (inverted_index d) t ≠ ∅).

(** What holds of every state the engine can reach. *)
Record state_inv (st : State) : Prop := {
  inv_strategy : sort_strategy (engine st) = KeySortStrategy;
  inv_next : (1 ≤ next_doc_id (engine st))%Z;
  inv_ids : ∀ name d id doc,
    datasets (engine st) !! name = Some d → documents d !! id = Some doc →
    (1 ≤ id < next_doc_id (engine st))%Z ∧ doc_id doc = id
    ∧ lower (content doc) = content doc;
  inv_unique : ∀ n1 n2 d1 d2 id,
    datasets (engine st) !! n1 = Some d1 → datasets (engine st) !! n2 = Some d2 →
    id ∈ dom (documents d1) → id ∈ dom (documents d2) → n1 = n2;
  inv_nogap : ∀ id, (1 ≤ id < next_doc_id (engine st))%Z →
    ∃ name d, datasets (engine st) !! name = Some d ∧ id ∈ dom (documents d);
  inv_wf : ∀ name d, datasets (engine st) !! name = Some d →
    index_wf (heap st) (inverted_index d) ∧ index_inj (inverted_index d);
  inv_sep : ∀ n1 n2 d1 d2 t1 t2 l,
    datasets (engine st) !! n1 = Some d1 → datasets (engine st) !! n2 = Some d2 →
    index (inverted_index d1) !! t1 = Some l → index (inverted_index d2) !! t2 = Some l →
    n1 = n2;
  inv_dataset : ∀ name d, datasets (engine st) !! name = Some d →
    dataset_invariant (heap st) d
}.

(** A query matches a stored document when the search of its dataset returns
    it. *)
Definition query_matches (o : SetOrder) (st : State) (name query : string)
    (doc : Document) : Prop :=
  ∃ rs, (App.search o st name query None).1 = Returns rs ∧ mkSearchResult doc ∈ rs.

(** All tokens of the lowercased query are tokens of the lowercased content. *)
Definition tokens_occur (query content : string) : Prop :=
  ∀ t, t ∈ split (lower query) → t ∈ split (lower content).

(** One dataset with one document. *)
Definition hello_ops : list op := [Create "d"; Insert "d" "Hello World" ∅].

(** One dataset with two documents that both match "design pattern" and
    carry the given dates. *)
Definition dated_ops (date1 date2 : string) : list op :=
  [Create "blogs";
   Insert "blogs" "This is my first blog about design pattern" {["date" := date1]};
   Insert "blogs" "Design Pattern are important" {["date" := date2]}].

(** A concrete iteration order, for running the model: ascending ids, the
    order CPython shows for a small set of small non-negative ints such as
    {1, 2}. *)
Definition ascending_order : SetOrder :=
  {| set_iter := λ s, merge_sort Z.le (elements s);
     set_iter_perm := λ s, merge_sort_Permutation Z.le (elements s) |}.

(** ** Further definitions *)

(** Whether a string contains a whitespace character. *)
Fixpoint has_space (s : string) : bool :=
  match s with
  | EmptyString => false
  | String c s' => isspace c || has_space s'
  end.

(** ** SingletonMeta *)

(** The objects of class [SearchEngine] and the class attribute
    [SingletonMeta._instances], keyed by class name.  [SearchEngine] is the
    one class that has the metaclass. *)
Record Process : Type := mkProcess {
  instances : gmap string loc;
  engines : gmap loc SearchEngine
}.

Definition SearchEngine_class : string := "SearchEngine".

(** The call of [super().__call__]: a new object, set up by
    [SearchEngine.__init__]. *)
Definition SearchEngine_new (p : Process) : loc * Process :=
  let l := fresh (dom (engines p)) in
  (l, mkProcess (instances p) (<[l := SearchEngine_init]> (engines p))).

(** [SingletonMeta.__call__] with [cls = SearchEngine]; [None] stands for the
    [KeyError] of [cls._instances[cls]]. *)
Definition SingletonMeta_call (p : Process) : option loc * Process :=
  let p1 :=
    match instances p !! SearchEngine_class with
    | None =>
        let '(instance, p') := SearchEngine_new p in
        mkProcess (<[SearchEngine_class := instance]> (instances p')) (engines p')
    | Some _ => p
    end in
  (instances p1 !! SearchEngine_class, p1).

(** ** The request handlers of [src/app.py] *)

(** [s.split(sep)] for a one-character separator: the pieces between the
    occurrences of [sep], empty pieces included.  [tok] is the piece read so
    far. *)
Fixpoint split_on_from (sep : ascii) (tok : string) (s : string) : list string :=
  match s with
  | EmptyString => [tok]
  | String c s' =>
      if decide (c = sep) then tok :: split_on_from sep EmptyString s'
      else split_on_from sep (tok +:+ String c EmptyString) s'
  end.

Definition split_on (sep : ascii) (s : string) : list string :=
  split_on_from sep EmptyString s.

(** The number of occurrences of a character. *)
Fixpoint count_char (c : ascii) (s : string) : nat :=
  match s with
  | EmptyString => 0%nat
  | String c' s' => ((if decide (c' = c) then 1 else 0) + count_char c s')%nat
  end.

(** What a handler can catch: an exception of the engine, the [ValueError]
    of [dict(...)] for element [i] of length [n], or the [AttributeError] of
    [None.lower()]. *)
Inductive handler_exn : Type :=
  | EngineError (e : exn)
  | DictLengthError (i n : nat)
  | NoneLowerError.

(** [dict(pairs)]: every element must have length 2; later keys win. *)
Fixpoint dict_of (i : nat) (items : list (list string)) (acc : gmap string string)
    : handler_exn + gmap string string :=
  match items with
  | [] => inr acc
  | item :: items' =>
      match item with
      | [k; v] => dict_of (S i) items' (<[k := v]> acc)
      | _ => inl (DictLengthError i (length item))
      end
  end.

(** [dict(item.split(':') for item in metadata.split(','))] *)
Definition parse_metadata (metadata : string) : handler_exn + gmap string string :=
  dict_of 0 (map (split_on ":") (split_on "," metadata)) ∅.

(** The JSON payloads: [{'error': msg}], [{'error': str(e)}],
    [{'message': msg}] and [{'results': [{'content': c, 'metadata': m}, ...]}]. *)
Inductive payload : Type :=
  | JsonError (msg : string)
  | JsonException (e : handler_exn)
  | JsonMessage (msg : string)
  | JsonResults (results : list (string * gmap string string)).

Inductive request : Type :=
  | PostCreateDataset (dataset_name : option string)
  | PostUploadDocument (dataset_name content metaData : option string)
  | GetSearch (dataset_name search_patterns order_by_key : option string).

Module Routes.

(** [dataset_name not in search_engine.datasets], for a given name *)
Definition unknown (st : State) (dataset_name : option string) : bool :=
  negb (truthy dataset_name)
  || bool_decide (datasets (engine st) !! default EmptyString dataset_name = None).

(** [create_dataset()], route [/create_dataset] *)
Definition create_dataset (st : State) (dataset_name : option string)
    : (payload * Z) * State :=
  if negb (truthy dataset_name) then ((JsonError "Dataset name is required", 400), st)
  else
    let name := default EmptyString dataset_name in
    ((JsonMessage ("Dataset '" +:+ name +:+ "' created successfully"), 200),
     create_dataset st name).

(** [upload_document()], route [/upload_document] *)
Definition upload_document (st : State) (dataset_name content metadata : option string)
    : (payload * Z) * State :=
  if unknown st dataset_name then ((JsonError "Dataset does not exist", 400), st)
  else if negb (truthy content) || negb (truthy metadata)
  then ((JsonError "Content and metadata are required", 400), st)
  else
    match parse_metadata (default EmptyString metadata) with
    | inl e => ((JsonException e, 500), st)
    | inr meta_data_dict =>
        match App.insert_document st (default EmptyString dataset_name)
                (default EmptyString content) meta_data_dict with
        | (Returns _, st') => ((JsonMessage "Document uploaded successfully", 200), st')
        | (Raises e, st') => ((JsonException (EngineError e), 500), st')
        end
    end.

(** [search()], route [/search].  Without [search_patterns] the engine's
    [search] raises at [search_patterns.lower()], after its dataset check. *)
Definition search (o : SetOrder) (st : State)
    (dataset_name search_patterns order_by_key : option string) : (payload * Z) * State :=
  if unknown st dataset_name then ((JsonError "Dataset does not exist", 400), st)
  else
    match search_patterns with
    | None => ((JsonException NoneLowerError, 500), st)
    | Some patterns =>
        match App.search o st (default EmptyString dataset_name) patterns order_by_key with
        | (Returns results, st') =>
            ((JsonResults (map (λ result, (content (document result),
                                           meta_data (document result))) results), 200),
             st')
        | (Raises e, st') => ((JsonException (EngineError e), 500), st')
        end
    end.

Definition handle (o : SetOrder) (st : State) (r : request) : (payload * Z) * State :=
  match r with
  | PostCreateDataset n => create_dataset st n
  | PostUploadDocument n c m => upload_document st n c m
  | GetSearch n q k => search o st n q k
  end.

(** The state after a sequence of requests. *)
Definition serve (o : SetOrder) (st : State) (rs : list request) : State :=
  fold_left (λ st r, (handle o st r).2) rs st.

End Routes.

(** * Proofs *)

(** Looks up the dataset [name] of the concrete state [st] by evaluation. *)
Ltac lookup_dataset st name H :=
  assert (datasets (engine st) !! name
          = Some (default createDataset (datasets (engine st) !! name))) as H
    by (by vm_compute).

(** ** Strings *)

Lemma lower_char_idemp (c : ascii) : lower_char (lower_char c) = lower_char c.
Proof. destruct c as [[] [] [] [] [] [] [] []]; reflexivity. Qed.

Lemma lower_idemp (s : string) : lower (lower s) = lower s.
Proof.
  induction s as [|c s IH]; simpl; [reflexivity|].
  by rewrite lower_char_idemp, IH.
Qed.

Lemma lower_app (s t : string) : lower (s +:+ t) = lower s +:+ lower t.
Proof. induction s as [|c s IH]; simpl; [reflexivity|]. by rewrite IH. Qed.

(** Every token of a lowercased string is itself lowercase. *)
Lemma split_from_lower (s tok t : string) :
  lower tok = tok → t ∈ split_from tok (lower s) → lower t = t.
Proof.
  revert tok. induction s as [|c s IH]; intros tok Htok; simpl.
  - case_decide; [by intros ?%elem_of_nil|].
    by intros ->%list_elem_of_singleton.
  - destruct (isspace (lower_char c)).
    + case_decide.
      * by apply IH.
      * intros [->|Ht]%elem_of_cons; [done|]. by apply (IH EmptyString).
    + apply IH. rewrite lower_app, Htok. simpl. by rewrite lower_char_idemp.
Qed.

Lemma split_lower_lowercase (s t : string) : t ∈ split (lower s) → lower t = t.
Proof. by apply split_from_lower. Qed.

(** ** The order on keys *)

Lemma ascii_compare_refl (c : ascii) : Ascii.compare c c = Eq.
Proof. unfold Ascii.compare. apply N.compare_refl. Qed.

Lemma ascii_compare_lt_trans (a b c : ascii) :
  Ascii.compare a b = Lt → Ascii.compare b c = Lt → Ascii.compare a c = Lt.
Proof.
  unfold Ascii.compare. rewrite !N.compare_lt_iff. apply N.lt_trans.
Qed.

Lemma string_compare_refl (s : string) : String.compare s s = Eq.
Proof.
  induction s as [|c s IH]; simpl; [done|]. by rewrite ascii_compare_refl.
Qed.

Lemma string_compare_lt_trans (a b c : string) :
  String.compare a b = Lt → String.compare b c = Lt → String.compare a c = Lt.
Proof.
  revert b c. induction a as [|x a IH]; intros [|y b] [|z c]; simpl; try done.
  destruct (Ascii.compare x y) eqn:Hxy; try done.
  - apply Ascii.compare_eq_iff in Hxy as ->.
    destruct (Ascii.compare y z); try done. apply IH.
  - intros _. destruct (Ascii.compare y z) eqn:Hyz; try done.
    + apply Ascii.compare_eq_iff in Hyz as <-. by rewrite Hxy.
    + by rewrite (ascii_compare_lt_trans _ _ _ Hxy Hyz).
Qed.

Lemma str_lt_irrefl (a : string) : str_lt a a = false.
Proof. unfold str_lt, String.ltb. by rewrite string_compare_refl. Qed.

Lemma str_lt_trans (a b c : string) :
  str_lt a b = true → str_lt b c = true → str_lt a c = true.
Proof.
  unfold str_lt, String.ltb.
  destruct (String.compare a b) eqn:Hab; try done.
  destruct (String.compare b c) eqn:Hbc; try done.
  by rewrite (string_compare_lt_trans _ _ _ Hab Hbc).
Qed.

Lemma str_lt_asym (a b : string) : str_lt a b = true → str_lt b a = false.
Proof.
  intros H. destruct (str_lt b a) eqn:Hba; [|done].
  by rewrite <- (str_lt_irrefl a), <- (str_lt_trans _ _ _ H Hba).
Qed.

Lemma str_le_cases (a b : string) : str_le a b ↔ a = b ∨ str_lt a b = true.
Proof.
  unfold str_le, str_lt, String.ltb. rewrite (String.compare_antisym b a).
  destruct (String.compare a b) eqn:Hab; simpl.
  - apply String.compare_eq_iff in Hab. split; [by left|done].
  - split; [by right|done].
  - split; [done|]. intros [->|?]; [|done]. by rewrite string_compare_refl in Hab.
Qed.

Lemma str_le_antisym (a b : string) : str_le a b → str_le b a → a = b.
Proof.
  rewrite !str_le_cases. intros [?|Hab] [?|Hba]; try done.
  by rewrite (str_lt_asym _ _ Hab) in Hba.
Qed.

Lemma str_le_trans (a b c : string) : str_le a b → str_le b c → str_le a c.
Proof.
  rewrite !str_le_cases. intros [->|Hab] [->|Hbc]; eauto using str_lt_trans.
Qed.

(** ** [sorted] is a stable ascending sort *)

Section sorted.
Context {A : Type} (f : A → string).

Lemma sorted_insert_perm (x : A) (l : list A) : sorted_insert f x l ≡ₚ x :: l.
Proof.
  induction l as [|y l IH]; simpl; [done|].
  destruct (str_lt (f y) (f x)); [|done].
  by rewrite IH, Permutation_swap.
Qed.

Lemma sorted_perm (l : list A) : sorted f l ≡ₚ l.
Proof.
  induction l as [|x l IH]; simpl; [done|].
  by rewrite sorted_insert_perm, IH.
Qed.

Lemma sorted_insert_sorted (x : A) (l : list A) :
  StronglySorted (key_le f) l → StronglySorted (key_le f) (sorted_insert f x l).
Proof.
  induction 1 as [|y l Hl IH Hy]; simpl.
  - repeat constructor.
  - destruct (str_lt (f y) (f x)) eqn:Hyx.
    + constructor; [done|].
      rewrite sorted_insert_perm. constructor; [|done].
      by apply str_lt_asym.
    + constructor; [by constructor|].
      constructor; [done|].
      eapply Forall_impl; [exact Hy|].
      intros z Hz. by apply (str_le_trans _ (f y)).
Qed.

Lemma sorted_sorted (l : list A) : StronglySorted (key_le f) (sorted f l).
Proof.
  induction l as [|x l IH]; simpl; [constructor|].
  by apply sorted_insert_sorted.
Qed.

(** Stability: the elements with one key keep their relative order. *)
Lemma sorted_insert_filter (k : string) (x : A) (l : list A) :
  filter (λ y, f y = k) (sorted_insert f x l) = filter (λ y, f y = k) (x :: l).
Proof.
  induction l as [|y l IH]; simpl; [done|].
  destruct (str_lt (f y) (f x)) eqn:Hyx; [|done].
  rewrite filter_cons, IH, !filter_cons.
  destruct (decide (f y = k)) as [Hy|Hy], (decide (f x = k)) as [Hx|Hx]; try done.
  rewrite Hy, Hx, str_lt_irrefl in Hyx. done.
Qed.

Lemma sorted_stable (k : string) (l : list A) :
  filter (λ y, f y = k) (sorted f l) = filter (λ y, f y = k) l.
Proof.
  induction l as [|x l IH]; simpl; [done|].
  by rewrite sorted_insert_filter, !filter_cons, IH.
Qed.

(** Two ascending lists with the same elements in the same order under every
    key are equal: a stable ascending sort has one possible result, so
    [sorted] stands for whatever algorithm the builtin runs. *)
Lemma stable_sorted_eq (l1 l2 : list A) :
  StronglySorted (key_le f) l1 → StronglySorted (key_le f) l2 →
  (∀ k, filter (λ y, f y = k) l1 = filter (λ y, f y = k) l2) →
  l1 = l2.
Proof.
  intros H1. revert l2. induction H1 as [|x l1 Hl1 IH Hx]; intros l2 H2 Hf.
  - destruct l2 as [|y l2]; [done|].
    specialize (Hf (f y)). rewrite filter_nil, filter_cons, decide_True in Hf; done.
  - destruct H2 as [|y l2 Hl2 Hy].
    { specialize (Hf (f x)). rewrite filter_nil, filter_cons, decide_True in Hf; done. }
    assert (f x = f y) as Hxy.
    { destruct (decide (f x = f y)) as [|Hne]; [done|].
      apply str_le_antisym.
      - pose proof (Hf (f y)) as E.
        rewrite (filter_cons _ y), decide_True, filter_cons, decide_False in E by done.
        assert (y ∈ l1) as Hin.
        { eapply (list_elem_of_filter (λ z, f z = f y)). rewrite E. by left. }
        by apply (proj1 (Forall_forall _ _) Hx).
      - pose proof (Hf (f x)) as E.
        rewrite (filter_cons _ x), decide_True, filter_cons, decide_False in E by done.
        assert (x ∈ l2) as Hin.
        { eapply (list_elem_of_filter (λ z, f z = f x)). rewrite <- E. by left. }
        by apply (proj1 (Forall_forall _ _) Hy). }
    pose proof (Hf (f x)) as E.
    rewrite !filter_cons, !decide_True in E by done.
    injection E as <- E. f_equal. apply IH; [done|].
    intros k. destruct (decide (f x = k)) as [<-|Hne]; [done|].
    specialize (Hf k). by rewrite !filter_cons, !decide_False in Hf.
Qed.

Lemma sorted_unique (l l' : list A) :
  StronglySorted (key_le f) l' →
  (∀ k, filter (λ y, f y = k) l' = filter (λ y, f y = k) l) →
  l' = sorted f l.
Proof.
  intros Hs Hf. apply stable_sorted_eq; [done|apply sorted_sorted|].
  intros k. by rewrite Hf, sorted_stable.
Qed.
End sorted.

(** ** Set objects *)

Lemma set_at_insert_eq (h : set_heap) (l : loc) (s : gset Z) :
  set_at (<[l := s]> h) l = s.
Proof. unfold set_at. by rewrite lookup_insert_eq. Qed.

Lemma set_at_insert_ne (h : set_heap) (l l' : loc) (s : gset Z) :
  l ≠ l' → set_at (<[l := s]> h) l' = set_at h l'.
Proof. intros. unfold set_at. by rewrite lookup_insert_ne. Qed.

Lemma set_at_subseteq (h h' : set_heap) (l : loc) :
  h ⊆ h' → l ∈ dom h → set_at h' l = set_at h l.
Proof.
  intros Hsub [s Hs]%elem_of_dom. unfold set_at.
  by rewrite Hs, (lookup_weaken _ _ _ _ Hs Hsub).
Qed.

Lemma set_at_fresh (h : set_heap) : set_at h (fresh (dom h)) = ∅.
Proof.
  unfold set_at. by rewrite (not_elem_of_dom_1 h (fresh (dom h)) (is_fresh _)).
Qed.

Lemma insert_fresh_subseteq (h0 h : set_heap) (s : gset Z) :
  h0 ⊆ h → h0 ⊆ <[fresh (dom h) := s]> h.
Proof.
  intros Hsub. etrans; [exact Hsub|].
  apply insert_subseteq, not_elem_of_dom, is_fresh.
Qed.

Lemma insert_outside_subseteq (h0 h : set_heap) (l : loc) (s : gset Z) :
  h0 ⊆ h → l ∉ dom h0 → h0 ⊆ <[l := s]> h.
Proof.
  intros Hsub Hl. apply map_subseteq_spec. intros i x Hx.
  rewrite lookup_insert_ne.
  - by apply (lookup_weaken h0).
  - intros ->. apply Hl, elem_of_dom. eauto.
Qed.

Lemma fresh_outside (h0 h : set_heap) : h0 ⊆ h → fresh (dom h) ∉ dom h0.
Proof.
  intros Hsub Hin. apply (is_fresh (dom h)).
  by apply (subseteq_dom _ _ Hsub).
Qed.

(** ** [InvertedIndex.search] *)

(** The heap before the call is a part of the heap after it: the loop writes
    to the copy and to fresh defaults only. *)
Lemma intersect_word_frame (h0 h : set_heap) (ix : InvertedIndex) (r : loc) (w : string) :
  h0 ⊆ h → r ∉ dom h0 → h0 ⊆ intersect_word ix r h w.
Proof.
  intros Hsub Hr. unfold intersect_word, index_get, set_new, set_intersection_update.
  apply insert_outside_subseteq; [|done]. by apply insert_fresh_subseteq.
Qed.

Lemma intersect_words_frame (h0 h : set_heap) (ix : InvertedIndex) (r : loc) (ws : list string) :
  h0 ⊆ h → r ∉ dom h0 → h0 ⊆ fold_left (intersect_word ix r) ws h.
Proof.
  revert h. induction ws as [|w ws IH]; intros h Hsub Hr; simpl; [done|].
  apply IH; [|done]. by apply intersect_word_frame.
Qed.

Lemma InvertedIndex_search_frame (h : set_heap) (ix : InvertedIndex) (ws : list string) :
  h ⊆ (InvertedIndex_search h ix ws).2.
Proof.
  destruct ws as [|w ws]; simpl.
  - by apply insert_fresh_subseteq.
  - unfold index_get, set_new, set_copy. simpl.
    assert (h ⊆ <[fresh (dom h) := ∅]> h) as H0 by by apply insert_fresh_subseteq.
    apply intersect_words_frame.
    + by apply insert_fresh_subseteq.
    + by apply fresh_outside.
Qed.

(** The set returned is a new object, not one the index refers to. *)
Lemma InvertedIndex_search_fresh (h : set_heap) (ix : InvertedIndex) (ws : list string) :
  (InvertedIndex_search h ix ws).1 ∉ dom h.
Proof.
  destruct ws as [|w ws]; simpl.
  - apply is_fresh.
  - unfold index_get, set_new, set_copy. simpl.
    apply fresh_outside. by apply insert_fresh_subseteq.
Qed.

(** What the loop computes. *)
Lemma index_get_value (h0 h : set_heap) (ix : InvertedIndex) (w : string) :
  index_wf h0 ix → h0 ⊆ h →
  set_at (index_get h ix w).2 (index_get h ix w).1 = posting h0 ix w.
Proof.
  intros Hwf Hsub. unfold index_get, set_new, posting. simpl.
  destruct (index ix !! w) as [l|] eqn:Hl; simpl.
  - assert (l ∈ dom h0) as Hd by eauto.
    rewrite set_at_insert_ne.
    + by apply set_at_subseteq.
    + intros <-. by apply (fresh_outside h0 h).
  - apply set_at_insert_eq.
Qed.

Lemma intersect_word_value (h0 h : set_heap) (ix : InvertedIndex) (r : loc) (w : string) :
  index_wf h0 ix → h0 ⊆ h → r ∈ dom h →
  set_at (intersect_word ix r h w) r = set_at h r ∩ posting h0 ix w
  ∧ r ∈ dom (intersect_word ix r h w).
Proof.
  intros Hwf Hsub Hr.
  pose proof (index_get_value h0 h ix w Hwf Hsub) as Hv.
  unfold intersect_word. destruct (index_get h ix w) as [t h'] eqn:Hg. simpl in Hv.
  unfold set_intersection_update. rewrite set_at_insert_eq, Hv. split.
  - f_equal. unfold index_get, set_new in Hg. simplify_eq.
    apply set_at_insert_ne. intros <-. by apply (is_fresh (dom h)).
  - rewrite dom_insert_L. set_solver.
Qed.

Lemma intersect_words_value (h0 h : set_heap) (ix : InvertedIndex) (r : loc)
    (ws : list string) (x : Z) :
  index_wf h0 ix → h0 ⊆ h → r ∈ dom h → r ∉ dom h0 →
  x ∈ set_at (fold_left (intersect_word ix r) ws h) r
  ↔ x ∈ set_at h r ∧ ∀ w, w ∈ ws → x ∈ posting h0 ix w.
Proof.
  intros Hwf. revert h. induction ws as [|w ws IH]; intros h Hsub Hr Hr0; simpl.
  - split; [|tauto]. intros ?. split; [done|]. by intros ? ?%elem_of_nil.
  - destruct (intersect_word_value h0 h ix r w Hwf Hsub Hr) as [Hv Hd].
    rewrite IH; [|by apply intersect_word_frame|done|done].
    rewrite Hv, elem_of_intersection. split.
    + intros [[??] Hall]. split; [done|].
      intros w' [->|?]%elem_of_cons; eauto.
    + intros [? Hall]. split; [split|]; [done|apply Hall; left|].
      intros w' ?. apply Hall. by right.
Qed.

Lemma InvertedIndex_search_value (h : set_heap) (ix : InvertedIndex)
    (ws : list string) (x : Z) :
  index_wf h ix →
  x ∈ set_at (InvertedIndex_search h ix ws).2 (InvertedIndex_search h ix ws).1
  ↔ ws ≠ [] ∧ ∀ w, w ∈ ws → x ∈ posting h ix w.
Proof.
  intros Hwf. destruct ws as [|w ws].
  - simpl. rewrite set_at_insert_eq. set_solver.
  - pose proof (index_get_value h h ix w Hwf (reflexivity h)) as Hv.
    assert (h ⊆ (index_get h ix w).2) as Hsub
      by (unfold index_get, set_new; simpl; by apply insert_fresh_subseteq).
    unfold InvertedIndex_search, set_copy.
    destruct (index_get h ix w) as [seed h0]. simpl in *.
    rewrite intersect_words_value; [|done| |..].
    + rewrite set_at_insert_eq, Hv. split.
      * intros [? Hall]. split; [done|]. intros w' [->|?]%elem_of_cons; eauto.
      * intros [_ Hall]. split; [apply Hall; left|]. intros w' ?. apply Hall. by right.
    + by apply insert_fresh_subseteq.
    + rewrite dom_insert_L. set_solver.
    + by apply fresh_outside.
Qed.

(** ** [InvertedIndex.addDocument] *)

Lemma index_grows_nil (doc_id : Z) (h : set_heap) (ix : InvertedIndex) :
  index_wf h ix → index_inj ix → index_grows doc_id [] h ix h ix.
Proof.
  intros Hwf Hinj. split; try done.
  - intros t. rewrite decide_False by apply not_elem_of_nil. set_solver.
  - intros t l ?. by left.
Qed.

Lemma index_grows_trans (doc_id : Z) (ws1 ws2 : list string)
    (h h1 h2 : set_heap) (ix ix1 ix2 : InvertedIndex) :
  index_grows doc_id ws1 h ix h1 ix1 →
  index_grows doc_id ws2 h1 ix1 h2 ix2 →
  index_grows doc_id (ws1 ++ ws2) h ix h2 ix2.
Proof.
  intros G1 G2. split.
  - apply G2.
  - apply G2.
  - etrans; [apply G1|apply G2].
  - intros t. rewrite (grows_posting _ _ _ _ _ _ G2), (grows_posting _ _ _ _ _ _ G1).
    repeat case_decide; set_solver.
  - intros l Hl Hno. rewrite (grows_frame _ _ _ _ _ _ G2).
    + by apply (grows_frame _ _ _ _ _ _ G1).
    + by apply (grows_dom _ _ _ _ _ _ G1).
    + intros t Ht. destruct (grows_new _ _ _ _ _ _ G1 t l Ht) as [?|[? _]]; [|done].
      by eapply Hno.
  - intros t l Ht. destruct (grows_new _ _ _ _ _ _ G2 t l Ht) as [Ht1|[Hl Hin]].
    + destruct (grows_new _ _ _ _ _ _ G1 t l Ht1) as [?|[? ?]]; [by left|].
      right. split; [done|]. set_solver.
    + right. split; [|set_solver].
      intros ?. by apply Hl, (grows_dom _ _ _ _ _ _ G1).
  - intros t l ?. by apply (grows_old _ _ _ _ _ _ G2), (grows_old _ _ _ _ _ _ G1).
Qed.

Lemma add_word_grows (doc_id : Z) (h : set_heap) (ix : InvertedIndex) (w : string) :
  index_wf h ix → index_inj ix →
  index_grows doc_id [w] h ix (add_word doc_id (h, ix) w).1 (add_word doc_id (h, ix) w).2.
Proof.
  intros Hwf Hinj. unfold add_word.
  destruct (index ix !! w) as [l|] eqn:Hw; simpl.
  - rewrite Hw. simpl. unfold set_add. split.
    + intros t l' Ht. rewrite dom_insert_L. set_solver.
    + done.
    + rewrite dom_insert_L. set_solver.
    + intros t. unfold posting. destruct (decide (t = w)) as [->|Hne].
      * rewrite Hw, set_at_insert_eq, decide_True by set_solver. set_solver.
      * rewrite decide_False by set_solver.
        destruct (index ix !! t) as [l'|] eqn:Ht; [|set_solver].
        rewrite set_at_insert_ne; [set_solver|].
        intros <-. by apply Hne, (Hinj _ _ l).
    + intros l' _ Hno. apply lookup_insert_ne. intros <-. by apply (Hno w).
    + intros t l' ?. by left.
    + done.
  - rewrite lookup_insert_eq. simpl. unfold set_add.
    set (l := fresh (dom h)).
    assert (l ∉ dom h) as Hl by apply is_fresh.
    rewrite set_at_insert_eq, insert_insert_eq. split; simpl.
    + intros t l' Ht. simpl in Ht. rewrite dom_insert_L.
      apply lookup_insert_Some in Ht as [[_ <-]|[_ Ht]]; [set_solver|].
      apply Hwf in Ht. set_solver.
    + intros t1 t2 l' H1 H2. simpl in H1, H2.
      apply lookup_insert_Some in H1 as [[<- <-]|[Hn1 H1]];
        apply lookup_insert_Some in H2 as [[<- E]|[Hn2 H2]]; try done.
      * subst. by apply Hwf in H2.
      * subst. by apply Hwf in H1.
      * by apply (Hinj _ _ l').
    + rewrite dom_insert_L. set_solver.
    + intros t. unfold posting. simpl. destruct (decide (t = w)) as [->|Hne].
      * rewrite lookup_insert_eq, Hw, set_at_insert_eq, decide_True by set_solver.
        set_solver.
      * rewrite lookup_insert_ne, decide_False by set_solver.
        destruct (index ix !! t) as [l'|] eqn:Ht; [|set_solver].
        rewrite set_at_insert_ne; [set_solver|].
        intros <-. by apply Hwf in Ht.
    + intros l' Hl' _. apply lookup_insert_ne. by intros <-.
    + intros t l' Ht. simpl in Ht.
      apply lookup_insert_Some in Ht as [[<- <-]|[_ Ht]]; [right; set_solver|by left].
    + intros t l' Ht. rewrite lookup_insert_ne; [done|]. by intros <-; simplify_eq.
Qed.

Lemma add_words_grows (doc_id : Z) (ws : list string) (h : set_heap) (ix : InvertedIndex) :
  index_wf h ix → index_inj ix →
  index_grows doc_id ws h ix
    (fold_left (add_word doc_id) ws (h, ix)).1 (fold_left (add_word doc_id) ws (h, ix)).2.
Proof.
  revert h ix. induction ws as [|w ws IH]; intros h ix Hwf Hinj; cbn [fold_left].
  - by apply index_grows_nil.
  - pose proof (add_word_grows doc_id h ix w Hwf Hinj) as G.
    destruct (add_word doc_id (h, ix) w) as [h1 ix1]. simpl in G.
    apply (index_grows_trans _ [w] ws _ h1 _ _ ix1); [done|].
    apply IH; apply G.
Qed.

Lemma InvertedIndex_addDocument_grows (doc_id : Z) (c : string)
    (h : set_heap) (ix : InvertedIndex) :
  index_wf h ix → index_inj ix →
  index_grows doc_id (split (lower c)) h ix
    (InvertedIndex_addDocument h ix doc_id c).1 (InvertedIndex_addDocument h ix doc_id c).2.
Proof. apply add_words_grows. Qed.

(** ** Reachable states *)

Lemma posting_subseteq (h h' : set_heap) (ix : InvertedIndex) (t : string) :
  index_wf h ix → h ⊆ h' → posting h' ix t = posting h ix t.
Proof.
  intros Hwf Hsub. unfold posting.
  destruct (index ix !! t) as [l|] eqn:Hl; [|done].
  apply set_at_subseteq; eauto.
Qed.

Lemma index_wf_subseteq (h h' : set_heap) (ix : InvertedIndex) :
  index_wf h ix → h ⊆ h' → index_wf h' ix.
Proof. intros Hwf Hsub t l Hl. by apply (subseteq_dom _ _ Hsub), (Hwf t). Qed.

Lemma dataset_invariant_subseteq (h h' : set_heap) (d : Dataset) :
  index_wf h (inverted_index d) → h ⊆ h' →
  dataset_invariant h d → dataset_invariant h' d.
Proof.
  intros Hwf Hsub (H1 & H2 & H3). unfold dataset_invariant.
  split_and!; intros *; rewrite (posting_subseteq h h') by done; eauto.
Qed.

Lemma state_inv_initial : state_inv initial_state.
Proof.
  split; simpl; try done; try (intros *; by rewrite lookup_empty).
  intros id ?. lia.
Qed.

(** Garbage left in the heap does not disturb the invariant. *)
Lemma state_inv_subseteq (h' : set_heap) (st : State) :
  heap st ⊆ h' → state_inv st → state_inv (mkState h' (engine st)).
Proof.
  intros Hsub I. split; simpl; try apply I.
  - intros name d Hd. destruct (inv_wf _ I name d Hd) as [??].
    split; [by eapply index_wf_subseteq|done].
  - intros name d Hd. destruct (inv_wf _ I name d Hd) as [??].
    eapply dataset_invariant_subseteq; [done|done|]. by eapply inv_dataset.
Qed.

Lemma dataset_invariant_empty (h : set_heap) : dataset_invariant h createDataset.
Proof.
  unfold dataset_invariant, posting. simpl. split_and!.
  - intros id t. rewrite lookup_empty. split; [set_solver|].
    intros (doc & Hdoc & _). by rewrite lookup_empty in Hdoc.
  - intros id t. rewrite lookup_empty. set_solver.
  - intros t. rewrite dom_empty_L. set_solver.
Qed.

Lemma state_inv_create_dataset (st : State) (name : string) :
  state_inv st → state_inv (create_dataset st name).
Proof.
  intros I. unfold create_dataset.
  destruct (datasets (engine st) !! name) as [d0|] eqn:Hname; [done|].
  split; simpl; try apply I.
  - intros n d id doc [[_ <-]|[_ Hd]]%lookup_insert_Some Hdoc.
    + simpl in Hdoc. by rewrite lookup_empty in Hdoc.
    + by eapply inv_ids.
  - intros n1 n2 d1 d2 id [[<- <-]|[? H1]]%lookup_insert_Some
      [[<- <-]|[? H2]]%lookup_insert_Some; simpl; rewrite ?dom_empty_L; try set_solver.
    by eapply inv_unique.
  - intros id Hid. destruct (inv_nogap _ I id Hid) as (n & d & Hd & Hin).
    exists n, d. split; [|done]. rewrite lookup_insert_ne; [done|]. by intros <-; simplify_eq.
  - intros n d [[_ <-]|[_ Hd]]%lookup_insert_Some.
    + split; intros ?; intros; simpl in *; by rewrite lookup_empty in *.
    + by eapply inv_wf.
  - intros n1 n2 d1 d2 t1 t2 l [[<- <-]|[? H1]]%lookup_insert_Some
      [[<- <-]|[? H2]]%lookup_insert_Some; simpl; rewrite ?lookup_empty; try done.
    by eapply inv_sep.
  - intros n d [[_ <-]|[_ Hd]]%lookup_insert_Some.
    + apply dataset_invariant_empty.
    + by eapply inv_dataset.
Qed.

Lemma insert_document_unfold (st : State) (name c : string) (m : gmap string string)
    (d : Dataset) :
  datasets (engine st) !! name = Some d →
  let id := next_doc_id (engine st) in
  let r := InvertedIndex_addDocument (heap st) (inverted_index d) id (lower c) in
  App.insert_document st name c m =
    (Returns tt,
     mkState r.1
       (mkSearchEngine
          (<[name := mkDataset (<[id := Document_init id c m]> (documents d)) r.2]>
             (datasets (engine st)))
          (sort_strategy (engine st)) (id + 1))).
Proof.
  intros Hd. unfold App.insert_document, Dataset_addDocument. rewrite Hd. simpl.
  by destruct (InvertedIndex_addDocument _ _ _ _).
Qed.

Lemma state_inv_insert_document (st : State) (name c : string) (m : gmap string string) :
  state_inv st → state_inv (App.insert_document st name c m).2.
Proof.
  intros I. destruct (datasets (engine st) !! name) as [d|] eqn:Hname; cycle 1.
  { unfold App.insert_document. by rewrite Hname. }
  rewrite (insert_document_unfold _ _ _ _ _ Hname). simpl.
  pose proof (inv_next _ I) as Hnext.
  assert (∀ n d' id' doc, datasets (engine st) !! n = Some d' →
            documents d' !! id' = Some doc →
            (1 ≤ id' < next_doc_id (engine st))%Z ∧ doc_id doc = id'
            ∧ lower (content doc) = content doc) as Hids by apply I.
  assert (∀ id', (1 ≤ id' < next_doc_id (engine st))%Z →
            ∃ n d', datasets (engine st) !! n = Some d' ∧ id' ∈ dom (documents d'))
    as Hgap by apply I.
  remember (next_doc_id (engine st)) as id eqn:Eid.
  destruct (inv_wf _ I name d Hname) as [Hwf Hinj].
  pose proof (InvertedIndex_addDocument_grows id (lower c) _ _ Hwf Hinj) as G.
  rewrite lower_idemp in G.
  destruct (InvertedIndex_addDocument (heap st) (inverted_index d) id (lower c))
    as [h' ix']. simpl in *.
  assert (id ∉ dom (documents d)) as Hfresh.
  { intros [doc Hdoc]%elem_of_dom.
    destruct (Hids name d id doc Hname Hdoc) as [? _]. lia. }
  assert (∀ t, id ∉ posting (heap st) (inverted_index d) t) as Hnopost.
  { intros t Hin. apply Hfresh.
    destruct (inv_dataset _ I name d Hname) as (_ & HB & _). by apply (HB id t). }
  split; simpl.
  - apply I.
  - lia.
  - intros n d' id' doc [[<- <-]|[_ Hd]]%lookup_insert_Some Hdoc; simpl in *.
    + apply lookup_insert_Some in Hdoc as [[<- <-]|[_ Hdoc]]; simpl.
      * split; [lia|]. split; [done|apply lower_idemp].
      * destruct (Hids name d id' doc Hname Hdoc) as (? & ? & ?).
        split; [lia|done].
    + destruct (Hids n d' id' doc Hd Hdoc) as (? & ? & ?).
      split; [lia|done].
  - assert (∀ n2 d2 id', n2 ≠ name → datasets (engine st) !! n2 = Some d2 →
              id' ∈ dom (<[id := Document_init id c m]> (documents d)) →
              id' ∈ dom (documents d2) → False) as Hcross.
    { intros n2 d2 id' Hne Hd2. rewrite dom_insert_L.
      intros [->%elem_of_singleton|Hin]%elem_of_union Hin2.
      - apply elem_of_dom in Hin2 as [doc Hdoc].
        destruct (Hids n2 d2 id doc Hd2 Hdoc) as [? _]. lia.
      - apply Hne. symmetry. by eapply (inv_unique _ I name n2 d d2 id'). }
    intros n1 n2 d1 d2 id' [[<- <-]|[? H1]]%lookup_insert_Some
      [[<- <-]|[? H2]]%lookup_insert_Some; simpl; try done.
    + intros ??. by destruct (Hcross n2 d2 id').
    + intros ??. by destruct (Hcross n1 d1 id').
    + by eapply inv_unique.
  - intros id' Hid. destruct (decide (id' = id)) as [->|Hne].
    + exists name, (mkDataset (<[id := Document_init id c m]> (documents d)) ix').
      rewrite lookup_insert_eq. split; [done|]. simpl. rewrite dom_insert_L. set_solver.
    + destruct (Hgap id') as (n & d' & Hd & Hin); [lia|].
      destruct (decide (n = name)) as [->|Hn].
      * exists name, (mkDataset (<[id := Document_init id c m]> (documents d)) ix').
        rewrite lookup_insert_eq. split; [done|]. simpl. rewrite dom_insert_L.
        simplify_eq. set_solver.
      * exists n, d'. by rewrite lookup_insert_ne.
  - intros n d' [[_ <-]|[Hn Hd]]%lookup_insert_Some; simpl.
    + split; apply G.
    + destruct (inv_wf _ I n d' Hd) as [Hwf' ?]. split; [|done].
      intros t l Hl. by apply (grows_dom _ _ _ _ _ _ G), (Hwf' t).
  - assert (∀ n2 d2 t1 t2 l, n2 ≠ name → datasets (engine st) !! n2 = Some d2 →
              index ix' !! t1 = Some l → index (inverted_index d2) !! t2 = Some l →
              False) as Hcross.
    { intros n2 d2 t1 t2 l Hne Hd2 H1 H2.
      destruct (grows_new _ _ _ _ _ _ G t1 l H1) as [Hold|[Hnew _]].
      - apply Hne. symmetry. by eapply (inv_sep _ I name n2 d d2 t1 t2 l).
      - apply Hnew. by apply (inv_wf _ I n2 d2 Hd2) in H2. }
    intros n1 n2 d1 d2 t1 t2 l [[<- <-]|[? H1]]%lookup_insert_Some
      [[<- <-]|[? H2]]%lookup_insert_Some; simpl; try done.
    + intros ??. by destruct (Hcross n2 d2 t1 t2 l).
    + intros ??. by destruct (Hcross n1 d1 t2 t1 l).
    + by eapply inv_sep.
  - intros n d' [[_ <-]|[Hn Hd]]%lookup_insert_Some.
    + destruct (inv_dataset _ I name d Hname) as (HA & HB & HC).
      assert (∀ id' t, id' ∈ posting h' ix' t
                ↔ ∃ doc, <[id := Document_init id c m]> (documents d) !! id' = Some doc
                         ∧ t ∈ split (content doc) ∧ lower t = t) as HA'.
      { intros id' t. rewrite (grows_posting _ _ _ _ _ _ G), elem_of_union.
        destruct (decide (id' = id)) as [->|Hne].
        - rewrite lookup_insert_eq. split.
          + intros [Hin|Hin]; [by destruct (Hnopost t)|].
            case_decide as Ht; [|set_solver].
            exists (Document_init id c m). split_and!; [done|done|].
            by apply (split_lower_lowercase c).
          + intros (doc & [= <-] & Ht & _). simpl in Ht. right.
            rewrite decide_True by done. set_solver.
        - rewrite lookup_insert_ne by done. rewrite <- HA. split; [|by left].
          intros [?|Hin]; [done|]. case_decide; set_solver. }
      split_and!; simpl.
      * exact HA'.
      * intros id' t (doc & Hdoc & _)%HA'. apply elem_of_dom. eauto.
      * intros t [l Hl]%elem_of_dom.
        rewrite (grows_posting _ _ _ _ _ _ G).
        destruct (grows_new _ _ _ _ _ _ G t l Hl) as [Hold|[_ Hin]].
        -- assert (posting (heap st) (inverted_index d) t ≠ ∅)
             by (apply HC, elem_of_dom; eauto).
           set_solver.
        -- rewrite decide_True by done. set_solver.
    + assert (∀ t, posting h' (inverted_index d') t = posting (heap st) (inverted_index d') t)
        as Hsame.
      { intros t. unfold posting.
        destruct (index (inverted_index d') !! t) as [l|] eqn:Hl; [|done].
        unfold set_at. rewrite (grows_frame _ _ _ _ _ _ G); [done| |].
        - by apply (inv_wf _ I n d' Hd) in Hl.
        - intros t' Hl'. apply Hn. by eapply (inv_sep _ I name n d d' t' t l). }
      destruct (inv_dataset _ I n d' Hd) as (HA & HB & HC).
      split_and!; intros *; rewrite Hsame; eauto.
Qed.

Lemma search_frame (o : SetOrder) (st : State) (name q : string) (k : option string) :
  engine (App.search o st name q k).2 = engine st
  ∧ heap st ⊆ heap (App.search o st name q k).2.
Proof.
  unfold App.search. destruct (datasets (engine st) !! name) as [d|]; [|done].
  pose proof (InvertedIndex_search_frame (heap st) (inverted_index d) (split (lower q))) as F.
  destruct (InvertedIndex_search _ _ _) as [r h']. simpl in F.
  destruct (materialize _ _); [|done].
  by destruct (truthy k).
Qed.

Lemma state_inv_search (o : SetOrder) (st : State) (name q : string) (k : option string) :
  state_inv st → state_inv (App.search o st name q k).2.
Proof.
  intros I. destruct (search_frame o st name q k) as [He Hh].
  destruct (App.search o st name q k) as [r [h' e']]. simpl in *. subst e'.
  by apply (state_inv_subseteq h' st).
Qed.

Lemma state_inv_exec (o : SetOrder) (st : State) (c : op) :
  state_inv st → state_inv (App.exec o st c).2.
Proof.
  intros I. destruct c as [name|name c m|name q k]; simpl.
  - by apply state_inv_create_dataset.
  - pose proof (state_inv_insert_document st name c m I).
    by destruct (App.insert_document st name c m).
  - pose proof (state_inv_search o st name q k I).
    by destruct (App.search o st name q k).
Qed.

Lemma state_inv_run (o : SetOrder) (ops : list op) (st : State) :
  state_inv st → state_inv (App.run o st ops).
Proof.
  revert st. induction ops as [|c ops IH]; intros st I; [done|].
  apply IH. by apply state_inv_exec.
Qed.

Lemma state_inv_reachable (o : SetOrder) (ops : list op) :
  state_inv (App.run o initial_state ops).
Proof. apply state_inv_run, state_inv_initial. Qed.

(** The two files differ in what a call answers, not in what it does to the
    state. *)
Lemma Main_exec_state (o : SetOrder) (st : State) (c : op) :
  (Main.exec o st c).2 = (App.exec o st c).2
  ∧ is_insertion c (Main.exec o st c).1 = is_insertion c (App.exec o st c).1.
Proof.
  destruct c as [name|name c m|name q k]; simpl; [done| |].
  - unfold Main.insert_document, App.insert_document.
    destruct (datasets (engine st) !! name); [|done].
    by destruct (Dataset_addDocument _ _ _ _).
  - unfold Main.search, App.search.
    destruct (datasets (engine st) !! name); [|done].
    destruct (InvertedIndex_search _ _ _) as [r h'].
    destruct (materialize _ _); [|done].
    by destruct (truthy k).
Qed.

Lemma Main_run (o : SetOrder) (ops : list op) (st : State) :
  Main.run o st ops = App.run o st ops
  ∧ Main.inserted o st ops = App.inserted o st ops.
Proof.
  revert st. induction ops as [|c ops IH]; intros st; [done|].
  destruct (Main_exec_state o st c) as [Hs Hi].
  unfold Main.run, App.run, Main.inserted, App.inserted in *. simpl.
  destruct (Main.exec o st c) as [r1 s1], (App.exec o st c) as [r2 s2]. simpl in *.
  subst s1. rewrite Hi. destruct (IH s2) as [-> ->]. done.
Qed.

(** * The specified properties *)

(** C1. [InvertedIndex.search] returns exactly the intersection of the posting
    sets of all given terms (an absent term counts as the empty set) and the
    empty set for an empty term list; on the dataset
    {1: "a b", 2: "b c", 3: "a c"} the queries "a b", "b", "a c" and ""
    give {1}, {1,2}, {3} and {}. *)
Theorem search_is_intersection (h : set_heap) (ix : InvertedIndex) (terms : list string) :
  index_wf h ix →
  (∀ x, x ∈ search_result h ix terms
        ↔ terms ≠ [] ∧ ∀ t, t ∈ terms → x ∈ posting h ix t)
  ∧ (∀ t, index ix !! t = None → posting h ix t = ∅)
  ∧ search_result h ix [] = ∅
  ∧ abc_search "a b" = {[1]}
  ∧ abc_search "b" = {[1; 2]}
  ∧ abc_search "a c" = {[3]}
  ∧ abc_search "" = ∅.
Proof.
  intros Hwf. split_and!.
  - intros x. pose proof (InvertedIndex_search_value h ix terms x Hwf) as Hv.
    unfold search_result. by destruct (InvertedIndex_search h ix terms).
  - intros t Ht. unfold posting. by rewrite Ht.
  - unfold search_result. simpl. apply set_at_insert_eq.
  - by vm_compute.
  - by vm_compute.
  - by vm_compute.
  - by vm_compute.
Qed.

Lemma search_is_intersection_witness :
  index_wf abc_dataset.1 (inverted_index abc_dataset.2)
  ∧ ∀ x, x ∈ search_result abc_dataset.1 (inverted_index abc_dataset.2) ["a"; "b"]
         ↔ ["a"; "b"] ≠ []
           ∧ ∀ t, t ∈ ["a"; "b"] → x ∈ posting abc_dataset.1 (inverted_index abc_dataset.2) t.
Proof.
  assert (index_wf abc_dataset.1 (inverted_index abc_dataset.2)) as Hwf.
  { change (map_Forall (λ _ l, l ∈ dom abc_dataset.1) (index (inverted_index abc_dataset.2))).
    apply (bool_decide_unpack _). by vm_compute. }
  split; [exact Hwf|].
  apply (search_is_intersection _ _ ["a"; "b"] Hwf).
Defined.

(** C3. Against a dataset name that is not registered, [insert_document] and
    [search] both raise the dataset-not-found error and leave the whole
    state (registry, document stores, indexes and their posting sets,
    [next_doc_id]) as it was. *)
Theorem missing_dataset_fails_unchanged (o : SetOrder) (st : State)
    (name content query : string) (metaData : gmap string string)
    (order_by_key : option string) :
  datasets (engine st) !! name = None →
  App.insert_document st name content metaData = (Raises (App.not_found name), st)
  ∧ App.search o st name query order_by_key = (Raises (App.not_found name), st).
Proof.
  intros Hname. unfold App.insert_document, App.search. by rewrite Hname.
Qed.

Lemma missing_dataset_fails_unchanged_witness :
  datasets (engine initial_state) !! "blogs" = None
  ∧ App.insert_document initial_state "blogs" "first post" ∅
    = (Raises (ValueError "Dataset 'blogs' does not exist."), initial_state)
  ∧ App.search ascending_order initial_state "blogs" "post" (Some "date")
    = (Raises (ValueError "Dataset 'blogs' does not exist."), initial_state).
Proof.
  split; [reflexivity|].
  apply (missing_dataset_fails_unchanged ascending_order initial_state "blogs").
  reflexivity.
Defined.

(** Postings never shrink when a document is added. *)
Lemma add_word_mono (doc_id : Z) (h : set_heap) (ix : InvertedIndex) (w t : string) :
  posting h ix t ⊆ posting (add_word doc_id (h, ix) w).1 (add_word doc_id (h, ix) w).2 t
  ∧ doc_id ∈ posting (add_word doc_id (h, ix) w).1 (add_word doc_id (h, ix) w).2 w.
Proof.
  unfold add_word. destruct (index ix !! w) as [l|] eqn:Hw; simpl.
  - rewrite Hw. simpl. unfold posting, set_add. rewrite Hw, set_at_insert_eq.
    split; [|set_solver].
    destruct (index ix !! t) as [l'|]; [|set_solver].
    destruct (decide (l = l')) as [<-|?].
    + rewrite set_at_insert_eq. set_solver.
    + by rewrite set_at_insert_ne.
  - rewrite lookup_insert_eq. simpl. unfold posting, set_add. simpl.
    rewrite lookup_insert_eq, !set_at_insert_eq, insert_insert_eq.
    split; [|set_solver].
    destruct (decide (w = t)) as [<-|?].
    + rewrite Hw. set_solver.
    + rewrite lookup_insert_ne by done.
      destruct (index ix !! t) as [l'|]; [|set_solver].
      destruct (decide (fresh (dom h) = l')) as [<-|?].
      * rewrite set_at_fresh. set_solver.
      * by rewrite set_at_insert_ne.
Qed.

Lemma add_words_mono (doc_id : Z) (ws : list string) (h : set_heap) (ix : InvertedIndex)
    (t : string) :
  posting h ix t
    ⊆ posting (fold_left (add_word doc_id) ws (h, ix)).1
        (fold_left (add_word doc_id) ws (h, ix)).2 t
  ∧ (t ∈ ws →
     doc_id ∈ posting (fold_left (add_word doc_id) ws (h, ix)).1
                (fold_left (add_word doc_id) ws (h, ix)).2 t).
Proof.
  revert h ix. induction ws as [|w ws IH]; intros h ix; cbn [fold_left].
  - split; [done|]. by intros ?%elem_of_nil.
  - pose proof (add_word_mono doc_id h ix w t) as [Hm _].
    pose proof (add_word_mono doc_id h ix w w) as [_ Hw].
    destruct (add_word doc_id (h, ix) w) as [h1 ix1]. simpl in *.
    destruct (IH h1 ix1) as [IHm IHin]. split.
    + set_solver.
    + intros [->|Hin]%elem_of_cons; [set_solver|by apply IHin].
Qed.

(** C7. [InvertedIndex.addDocument] keeps stale postings: after
    [addDocument(id, c1)] and then [addDocument(id, c2)], [id] is in the
    posting set of every token of [c1] and of every token of [c2]. *)
Theorem addDocument_keeps_stale_postings (h : set_heap) (ix : InvertedIndex)
    (id : Z) (c1 c2 : string) :
  let '(h1, ix1) := InvertedIndex_addDocument h ix id c1 in
  let '(h2, ix2) := InvertedIndex_addDocument h1 ix1 id c2 in
  Forall (λ t, id ∈ posting h2 ix2 t) (split (lower c1) ++ split (lower c2)).
Proof.
  unfold InvertedIndex_addDocument.
  pose proof (λ t, add_words_mono id (split (lower c1)) h ix t) as M1.
  destruct (fold_left (add_word id) (split (lower c1)) (h, ix)) as [h1 ix1].
  pose proof (λ t, add_words_mono id (split (lower c2)) h1 ix1 t) as M2.
  destruct (fold_left (add_word id) (split (lower c2)) (h1, ix1)) as [h2 ix2].
  simpl in *. apply Forall_forall. intros t [Hin|Hin]%elem_of_app.
  - destruct (M1 t) as [_ H1]. destruct (M2 t) as [H2 _]. set_solver.
  - destruct (M2 t) as [_ H2]. by apply H2.
Qed.

(** C8. [create_dataset] is idempotent and non-destructive: for a name that is
    not registered it adds one empty dataset under that name and touches
    nothing else; for a registered name it changes nothing; called twice for
    "x" on a new engine it leaves exactly one empty dataset named "x". *)
Theorem create_dataset_idempotent (st : State) (name : string) :
  (datasets (engine st) !! name = None →
   create_dataset st name
   = mkState (heap st)
       (mkSearchEngine (<[name := mkDataset ∅ (mkInvertedIndex ∅)]> (datasets (engine st)))
          (sort_strategy (engine st)) (next_doc_id (engine st))))
  ∧ (is_Some (datasets (engine st) !! name) → create_dataset st name = st)
  ∧ create_dataset (create_dataset st name) name = create_dataset st name
  ∧ datasets (engine (create_dataset (create_dataset initial_state "x") "x"))
    = {["x" := mkDataset ∅ (mkInvertedIndex ∅)]}.
Proof.
  unfold create_dataset. split_and!.
  - by intros ->.
  - by intros [d ->].
  - destruct (datasets (engine st) !! name) eqn:Hname; simpl.
    + by rewrite Hname.
    + by rewrite lookup_insert_eq.
  - by vm_compute.
Qed.

(** C9. [KeySortStrategy.sort] of [src/main.py] raises an index error on an
    empty result list, for every key: it reads the first element before it
    sorts. *)
Theorem main_sort_empty_raises (inp_key : string) :
  Main.KeySortStrategy_sort [] inp_key = Raises IndexError.
Proof. reflexivity. Qed.

(** C10. [SearchEngine.search] does not change the state: registry, document
    stores, index maps, strategy and [next_doc_id] are the same after the
    call, and every set object that existed before it, so every posting set,
    has the contents it had; the set that [InvertedIndex.search] intersects
    in place is a new object (the copy of the seed). *)
Theorem search_does_not_mutate (o : SetOrder) (st : State) (name query : string)
    (order_by_key : option string) :
  let st' := (App.search o st name query order_by_key).2 in
  datasets (engine st') = datasets (engine st)
  ∧ next_doc_id (engine st') = next_doc_id (engine st)
  ∧ sort_strategy (engine st') = sort_strategy (engine st)
  ∧ (∀ l s, heap st !! l = Some s → heap st' !! l = Some s)
  ∧ (∀ n d t, datasets (engine st) !! n = Some d →
              index_wf (heap st) (inverted_index d) →
              posting (heap st') (inverted_index d) t
              = posting (heap st) (inverted_index d) t)
  ∧ (∀ ix ws, (InvertedIndex_search (heap st) ix ws).1 ∉ dom (heap st)).
Proof.
  destruct (search_frame o st name query order_by_key) as [He Hh].
  simpl. rewrite He. split_and!; try done.
  - intros l s Hl. by apply (lookup_weaken (heap st)).
  - intros n d t _ Hwf. by apply posting_subseteq.
  - intros ix ws. apply InvertedIndex_search_fresh.
Qed.

(** ** Searching a reachable state *)

Lemma materialize_ok (d : Dataset) (ids : list Z) :
  (∀ id, id ∈ ids → id ∈ dom (documents d)) →
  ∃ rs, materialize d ids = Returns rs
        ∧ Forall2 (λ id r, documents d !! id = Some (document r)) ids rs.
Proof.
  induction ids as [|id ids IH]; intros Hin; simpl.
  - exists []. by split.
  - destruct IH as (rs & -> & Hrs); [intros; apply Hin; by right|].
    assert (id ∈ dom (documents d)) as [doc Hdoc]%elem_of_dom by (apply Hin; by left).
    unfold gte_document_by_id. rewrite Hdoc.
    exists (mkSearchResult doc :: rs). split; [done|]. by constructor.
Qed.

(** In a reachable state a search of a registered dataset returns: it
    materialises the elements of the intersection, and sorts them when a key
    is given. *)
Lemma search_returns (o : SetOrder) (st : State) (name q : string) (d : Dataset) :
  state_inv st → datasets (engine st) !! name = Some d →
  let M := search_result (heap st) (inverted_index d) (split (lower q)) in
  ∃ pre, Forall2 (λ id r, documents d !! id = Some (document r)) (set_iter o M) pre
    ∧ (∀ k, (App.search o st name q k).1
            = Returns (if truthy k then sorted (sort_key (default EmptyString k)) pre
                       else pre))
    ∧ (∀ k, (Main.search o st name q k).1 = Returns pre).
Proof.
  intros I Hd M.
  destruct (inv_wf _ I name d Hd) as [Hwf _].
  destruct (inv_dataset _ I name d Hd) as (_ & HB & _).
  destruct (materialize_ok d (set_iter o M)) as (pre & Hpre & HF).
  { intros id Hin. rewrite (set_iter_perm o M), elem_of_elements in Hin.
    pose proof (InvertedIndex_search_value (heap st) (inverted_index d)
                  (split (lower q)) id Hwf) as Hv.
    unfold M, search_result in Hin.
    destruct (InvertedIndex_search _ _ _) as [r h']. simpl in Hv.
    apply Hv in Hin as [Hne Hall].
    destruct (split (lower q)) as [|t ts]; [done|].
    apply (HB id t), Hall. by left. }
  exists pre. split; [done|].
  unfold App.search, Main.search. rewrite Hd.
  unfold M, search_result in Hpre.
  destruct (InvertedIndex_search _ _ _) as [r h']. rewrite Hpre.
  split; intros k; [|done].
  destruct (truthy k); [|done]. simpl. by rewrite (inv_strategy _ I).
Qed.

(** Which stored documents a search returns. *)
Lemma search_matches (o : SetOrder) (st : State) (name q : string) (d : Dataset)
    (pre : list SearchResult) :
  state_inv st → datasets (engine st) !! name = Some d →
  Forall2 (λ id r, documents d !! id = Some (document r))
    (set_iter o (search_result (heap st) (inverted_index d) (split (lower q)))) pre →
  (∀ r, r ∈ pre → ∃ id, documents d !! id = Some (document r))
  ∧ (∀ id doc, documents d !! id = Some doc →
       (mkSearchResult doc ∈ pre
        ↔ split (lower q) ≠ []
          ∧ ∀ t, t ∈ split (lower q) → t ∈ split (content doc))).
Proof.
  intros I Hd HF.
  destruct (inv_wf _ I name d Hd) as [Hwf _].
  destruct (inv_dataset _ I name d Hd) as (HA & _ & _).
  set (M := search_result (heap st) (inverted_index d) (split (lower q))) in *.
  assert (∀ id, id ∈ set_iter o M
            ↔ split (lower q) ≠ []
              ∧ ∀ t, t ∈ split (lower q) → id ∈ posting (heap st) (inverted_index d) t)
    as HS.
  { intros id. rewrite (set_iter_perm o M), elem_of_elements.
    pose proof (InvertedIndex_search_value (heap st) (inverted_index d)
                  (split (lower q)) id Hwf) as Hv.
    unfold M, search_result. by destruct (InvertedIndex_search _ _ _). }
  split.
  - intros r Hr. apply list_elem_of_lookup in Hr as [i Hi].
    destruct (Forall2_lookup_r _ _ _ _ _ HF Hi) as (id & _ & Hid). eauto.
  - intros id doc Hdoc.
    assert (mkSearchResult doc ∈ pre ↔ id ∈ set_iter o M) as ->.
    { split.
      - intros Hr. apply list_elem_of_lookup in Hr as [i Hi].
        destruct (Forall2_lookup_r _ _ _ _ _ HF Hi) as (id' & Hid' & Hdoc').
        simpl in Hdoc'.
        destruct (inv_ids _ I name d id doc Hd Hdoc) as (_ & E1 & _).
        destruct (inv_ids _ I name d id' doc Hd Hdoc') as (_ & E2 & _).
        rewrite <- E1, E2. apply list_elem_of_lookup. eauto.
      - intros Hin. apply list_elem_of_lookup in Hin as [i Hi].
        destruct (Forall2_lookup_l _ _ _ _ _ HF Hi) as (r & Hr & Hdoc').
        rewrite Hdoc in Hdoc'. injection Hdoc' as ->.
        apply list_elem_of_lookup. exists i. by destruct r. }
    rewrite HS. split; intros [Hne Hall]; (split; [done|]); intros t Ht.
    + apply Hall, HA in Ht as (doc' & Hdoc' & Ht & _).
      rewrite Hdoc in Hdoc'. by injection Hdoc' as <-.
    + apply HA. exists doc. split_and!; [done|by apply Hall|].
      by apply (split_lower_lowercase q).
Qed.

(** C4. Every sequence of [create_dataset], [insert_document] and [search]
    calls on a new engine leaves every dataset with its invariant: an id is in
    the posting set of a term exactly when the term is a (lowercase) token of
    the stored content of the document with that id, every id in a posting
    set is a key of the document store, and no stored term has an empty
    posting set. *)
Theorem dataset_invariant_preserved (o : SetOrder) (ops : list op) (name : string)
    (d : Dataset) :
  datasets (engine (App.run o initial_state ops)) !! name = Some d →
  dataset_invariant (heap (App.run o initial_state ops)) d.
Proof. apply inv_dataset, state_inv_reachable. Qed.

Lemma dataset_invariant_preserved_witness :
  let st := App.run ascending_order initial_state (hello_ops ++ [Query "d" "hello" None])%list in
  ∃ d, datasets (engine st) !! "d" = Some d ∧ dataset_invariant (heap st) d.
Proof.
  set (ops := (hello_ops ++ [Query "d" "hello" None])%list).
  set (st := App.run ascending_order initial_state ops).
  lookup_dataset st "d" Hd.
  eexists. split; [exact Hd|].
  exact (dataset_invariant_preserved ascending_order ops "d" _ Hd).
Defined.

(** ** Document ids *)

Lemma exec_next_doc_id (o : SetOrder) (st : State) (c : op) :
  next_doc_id (engine (App.exec o st c).2)
  = next_doc_id (engine st) + (if is_insertion c (App.exec o st c).1 then 1 else 0).
Proof.
  destruct c as [name|name c m|name q k]; simpl.
  - unfold create_dataset. destruct (datasets (engine st) !! name); simpl; lia.
  - unfold App.insert_document.
    destruct (datasets (engine st) !! name); simpl; [|lia].
    by destruct (Dataset_addDocument _ _ _ _).
  - destruct (search_frame o st name q k) as [He _].
    destruct (App.search o st name q k) as [r st']. simpl in *. rewrite He. lia.
Qed.

Lemma run_next_doc_id (o : SetOrder) (ops : list op) (st : State) :
  next_doc_id (engine (App.run o st ops))
  = next_doc_id (engine st) + Z.of_nat (App.inserted o st ops).
Proof.
  unfold App.run, App.inserted.
  revert st. induction ops as [|c ops IH]; intros st.
  - simpl. lia.
  - pose proof (exec_next_doc_id o st c) as Hc. simpl.
    destruct (App.exec o st c) as [r st']. simpl in *.
    rewrite IH, Hc. destruct (is_insertion c r); lia.
Qed.

(** C5. Document ids are handed out 1, 2, 3, ... across all datasets: after
    [n] successful insertions the ids in use are exactly 1..n, each in one
    dataset only and each stored document carrying the id it is stored under,
    and the next successful insertion is stored under [n + 1].  Both files
    agree. *)
Theorem document_ids_sequential (o : SetOrder) (ops : list op) :
  let st := App.run o initial_state ops in
  let n := Z.of_nat (App.inserted o initial_state ops) in
  Main.run o initial_state ops = st
  ∧ Main.inserted o initial_state ops = App.inserted o initial_state ops
  ∧ next_doc_id (engine st) = n + 1
  ∧ (∀ id, (∃ name d, datasets (engine st) !! name = Some d ∧ id ∈ dom (documents d))
           ↔ (1 ≤ id ≤ n)%Z)
  ∧ (∀ n1 n2 d1 d2 id,
       datasets (engine st) !! n1 = Some d1 → datasets (engine st) !! n2 = Some d2 →
       id ∈ dom (documents d1) → id ∈ dom (documents d2) → n1 = n2)
  ∧ (∀ name d id doc,
       datasets (engine st) !! name = Some d → documents d !! id = Some doc →
       doc_id doc = id)
  ∧ (∀ name c m, is_Some (datasets (engine st) !! name) →
       (App.insert_document st name c m).1 = Returns tt
       ∧ Main.insert_document st name c m = App.insert_document st name c m
       ∧ next_doc_id (engine (App.insert_document st name c m).2) = n + 2
       ∧ ∃ d', datasets (engine (App.insert_document st name c m).2) !! name = Some d'
               ∧ documents d' !! (n + 1) = Some (mkDocument (n + 1) (lower c) m)).
Proof.
  intros st n.
  pose proof (state_inv_reachable o ops) as I. fold st in I.
  pose proof (run_next_doc_id o ops initial_state) as Hn. fold st n in Hn. simpl in Hn.
  destruct (Main_run o ops initial_state) as [Hr Hi].
  split_and!; try done.
  - lia.
  - intros id. split.
    + intros (name & d & Hd & [doc Hdoc]%elem_of_dom).
      destruct (inv_ids _ I name d id doc Hd Hdoc) as [? _]. lia.
    + intros Hid. apply (inv_nogap _ I). lia.
  - apply I.
  - intros name d id doc Hd Hdoc. by destruct (inv_ids _ I name d id doc Hd Hdoc) as (_ & ? & _).
  - intros name c m [d Hd].
    assert (Main.insert_document st name c m = App.insert_document st name c m) as HM.
    { unfold Main.insert_document, App.insert_document. by rewrite Hd. }
    rewrite HM, (insert_document_unfold st name c m d Hd). simpl.
    split_and!; [done|done|lia|].
    eexists. rewrite lookup_insert_eq. split; [done|]. simpl.
    replace (n + 1) with (next_doc_id (engine st)) by lia.
    by rewrite lookup_insert_eq.
Qed.

(** ** Case-insensitive search *)

Lemma search_unsorted_fst (o : SetOrder) (st : State) (name q : string) (d : Dataset) :
  datasets (engine st) !! name = Some d →
  let ids := set_iter o (search_result (heap st) (inverted_index d) (split (lower q))) in
  (App.search o st name q None).1 = materialize d ids
  ∧ ∀ k, (Main.search o st name q k).1 = materialize d ids.
Proof.
  intros Hd. unfold App.search, Main.search, search_result. rewrite Hd.
  destruct (InvertedIndex_search _ _ _) as [r h']. simpl.
  by destruct (materialize _ _).
Qed.

Lemma set_iter_singleton (o : SetOrder) (x : Z) : set_iter o {[x]} = [x].
Proof.
  apply Permutation_singleton_r. by rewrite set_iter_perm, elements_singleton.
Qed.

Lemma set_iter_empty (o : SetOrder) : set_iter o ∅ = [].
Proof. apply Permutation_nil_r. by rewrite set_iter_perm, elements_empty. Qed.

Lemma set_iter_pair (o : SetOrder) (x y : Z) :
  x ≠ y → set_iter o {[x; y]} = [x; y] ∨ set_iter o {[x; y]} = [y; x].
Proof.
  intros Hne. apply Permutation_length_2_inv. symmetry.
  rewrite set_iter_perm, elements_union_singleton by set_solver.
  by rewrite elements_singleton.
Qed.

(** C6, as the code has it.  In every state the engine can reach and for
    every registered dataset, a stored document (whose content is the
    lowercased text that was inserted) is returned for a query exactly when
    the lowercased query has at least one token and all its tokens are tokens
    of the stored content; a query without tokens matches nothing; a document
    inserted with content [c] is then matched by [q] exactly when [q] has a
    token and all tokens of lowercased [q] are tokens of lowercased [c]; and
    after inserting "Hello World" the query "hello" returns that document. *)
Theorem search_case_insensitive (o : SetOrder) (ops : list op) (name q : string)
    (d : Dataset) :
  let st := App.run o initial_state ops in
  datasets (engine st) !! name = Some d →
  (∀ id doc, documents d !! id = Some doc →
     lower (content doc) = content doc
     ∧ (query_matches o st name q doc
        ↔ split (lower q) ≠ [] ∧ ∀ t, t ∈ split (lower q) → t ∈ split (content doc)))
  ∧ (split (lower q) = [] → (App.search o st name q None).1 = Returns [])
  ∧ (∀ c m,
       query_matches o (App.insert_document st name c m).2 name q
         (Document_init (next_doc_id (engine st)) c m)
       ↔ split (lower q) ≠ [] ∧ tokens_occur q c)
  ∧ (App.search o (App.run o initial_state hello_ops) "d" "hello" None).1
    = Returns [mkSearchResult (mkDocument 1 "hello world" ∅)].
Proof.
  intros st Hd.
  assert (∀ st' d' id doc, state_inv st' → datasets (engine st') !! name = Some d' →
            documents d' !! id = Some doc →
            (query_matches o st' name q doc
             ↔ split (lower q) ≠ []
               ∧ ∀ t, t ∈ split (lower q) → t ∈ split (content doc))) as Hmatch.
  { intros st' d' id doc I' Hd' Hdoc.
    destruct (search_returns o st' name q d' I' Hd') as (pre & HF & Hret & _).
    destruct (search_matches o st' name q d' pre I' Hd' HF) as [_ HM].
    unfold query_matches. rewrite (Hret None). simpl. rewrite <- (HM id doc Hdoc).
    split; [by intros (rs & [= <-] & ?)|eauto]. }
  pose proof (state_inv_reachable o ops) as I. fold st in I.
  split_and!.
  - intros id doc Hdoc. split; [|by eapply Hmatch].
    by destruct (inv_ids _ I name d id doc Hd Hdoc) as (_ & _ & ?).
  - intros Hq. destruct (search_unsorted_fst o st name q d Hd) as [-> _].
    rewrite Hq. unfold search_result. simpl. by rewrite set_at_insert_eq, set_iter_empty.
  - intros c m.
    pose proof (state_inv_insert_document st name c m I) as I'.
    rewrite (insert_document_unfold st name c m d Hd) in *. simpl in I'.
    unfold tokens_occur.
    eapply (Hmatch _ _ (next_doc_id (engine st))
              (Document_init (next_doc_id (engine st)) c m) I').
    + simpl. apply lookup_insert_eq.
    + simpl. apply lookup_insert_eq.
  - set (st1 := App.run o initial_state hello_ops).
    lookup_dataset st1 "d" Hd1.
    destruct (search_unsorted_fst o st1 "d" "hello" _ Hd1) as [-> _].
    assert (search_result (heap st1)
              (inverted_index (default createDataset (datasets (engine st1) !! "d")))
              (split (lower "hello")) = {[1]}) as -> by (by vm_compute).
    rewrite set_iter_singleton. by vm_compute.
Qed.

Lemma search_case_insensitive_witness :
  let st := App.run ascending_order initial_state hello_ops in
  ∃ d, datasets (engine st) !! "d" = Some d
       ∧ (query_matches ascending_order st "d" "HELLO" (mkDocument 1 "hello world" ∅)
          ↔ split (lower "HELLO") ≠ []
            ∧ ∀ t, t ∈ split (lower "HELLO") → t ∈ split "hello world").
Proof.
  set (st := App.run ascending_order initial_state hello_ops).
  lookup_dataset st "d" Hd.
  eexists. split; [exact Hd|].
  refine (proj2 (proj1 (search_case_insensitive ascending_order hello_ops "d" "HELLO" _ Hd)
                   1 (mkDocument 1 "hello world" ∅) _)).
  by vm_compute.
Defined.

(** C6 as stated fails for a query without tokens: all of its (zero) tokens
    occur in the content of the stored document, yet the search of "" does
    not return it. *)
Lemma empty_query_matches_nothing :
  let st := App.run ascending_order initial_state hello_ops in
  let doc := mkDocument 1 "hello world" ∅ in
  (∃ d, datasets (engine st) !! "d" = Some d ∧ documents d !! 1 = Some doc)
  ∧ (App.search ascending_order st "d" "" None).1 = Returns []
  ∧ ¬ (query_matches ascending_order st "d" "" doc ↔ tokens_occur "" "Hello World").
Proof.
  cbv zeta. split_and!.
  - eexists. split; by vm_compute.
  - by vm_compute.
  - intros [_ H]. destruct H as (rs & Hrs & Hin).
    + intros t Ht. by apply elem_of_nil in Ht.
    + assert ((App.search ascending_order
                 (App.run ascending_order initial_state hello_ops) "d" "" None).1
              = Returns []) as E by (by vm_compute).
      rewrite E in Hrs. injection Hrs as <-. by apply elem_of_nil in Hin.
Qed.

(** ** Ordering the results *)



(** C2 in [src/main.py]: [SearchEngine.search] never reads [order_by_key].
    With two matching documents dated 2024-08-20 (id 1) and 2023-01-01 (id 2)
    the ascending iteration order returns them as 2024-08-20, 2023-01-01,
    which is not sorted by "date"; and whatever the iteration order of the
    set {1, 2} is, the results are unsorted either for these documents or for
    the same two with their dates exchanged. *)
Theorem main_search_ignores_order_by_key (o : SetOrder) :
  (∀ st name q key, Main.search o st name q key = Main.search o st name q None)
  ∧ (∃ rs, (Main.search ascending_order
              (Main.run ascending_order initial_state (dated_ops "2024-08-20" "2023-01-01"))
              "blogs" "design pattern" (Some "date")).1 = Returns rs
           ∧ map (sort_key "date") rs = ["2024-08-20"; "2023-01-01"]
           ∧ ¬ StronglySorted (key_le (sort_key "date")) rs)
  ∧ (∃ rs1 rs2,
       (Main.search o (Main.run o initial_state (dated_ops "2024-08-20" "2023-01-01"))
          "blogs" "design pattern" (Some "date")).1 = Returns rs1
       ∧ (Main.search o (Main.run o initial_state (dated_ops "2023-01-01" "2024-08-20"))
            "blogs" "design pattern" (Some "date")).1 = Returns rs2
       ∧ ¬ (StronglySorted (key_le (sort_key "date")) rs1
            ∧ StronglySorted (key_le (sort_key "date")) rs2)).
Proof.
  assert (∀ (r1 r2 : SearchResult),
            str_lt (sort_key "date" r2) (sort_key "date" r1) = true →
            ¬ StronglySorted (key_le (sort_key "date")) [r1; r2]) as Hbad.
  { intros r1 r2 Hlt Hs. apply StronglySorted_inv in Hs as [_ Hall].
    apply Forall_inv in Hall. unfold key_le, str_le in Hall. congruence. }
  split_and!.
  - done.
  - eexists. split_and!; [by vm_compute|by vm_compute|].
    apply Hbad. by vm_compute.
  - set (st1 := Main.run o initial_state (dated_ops "2024-08-20" "2023-01-01")).
    set (st2 := Main.run o initial_state (dated_ops "2023-01-01" "2024-08-20")).
    lookup_dataset st1 "blogs" Hd1.
    lookup_dataset st2 "blogs" Hd2.
    destruct (search_unsorted_fst o st1 "blogs" "design pattern" _ Hd1) as [_ ->].
    destruct (search_unsorted_fst o st2 "blogs" "design pattern" _ Hd2) as [_ ->].
    assert (search_result (heap st1)
              (inverted_index (default createDataset (datasets (engine st1) !! "blogs")))
              (split (lower "design pattern")) = {[1; 2]}) as -> by (by vm_compute).
    assert (search_result (heap st2)
              (inverted_index (default createDataset (datasets (engine st2) !! "blogs")))
              (split (lower "design pattern")) = {[1; 2]}) as -> by (by vm_compute).
    destruct (set_iter_pair o 1 2) as [-> | ->]; [done| |].
    + eexists _, _. split_and!; [by vm_compute|by vm_compute|].
      intros [Hs _]. revert Hs. apply Hbad. by vm_compute.
    + eexists _, _. split_and!; [by vm_compute|by vm_compute|].
      intros [_ Hs]. revert Hs. apply Hbad. by vm_compute.
Qed.

(** * Further properties of the code *)

(** ** Tokens *)

Lemma isspace_lower_char (c : ascii) : isspace (lower_char c) = isspace c.
Proof. destruct c as [[] [] [] [] [] [] [] []]; reflexivity. Qed.

Lemma has_space_app (s t : string) : has_space (s +:+ t) = has_space s || has_space t.
Proof.
  induction s as [|c s IH]; simpl; [done|]. by rewrite IH, orb_assoc.
Qed.

Lemma app_char_nonempty (s : string) (c : ascii) : s +:+ String c EmptyString ≠ EmptyString.
Proof. by destruct s. Qed.

(** A token is never empty and holds no whitespace. *)
Lemma split_from_token (s tok t : string) :
  has_space tok = false → t ∈ split_from tok s →
  t ≠ EmptyString ∧ has_space t = false.
Proof.
  revert tok. induction s as [|c s IH]; intros tok Htok; simpl.
  - case_decide; [by intros ?%elem_of_nil|].
    by intros ->%list_elem_of_singleton.
  - destruct (isspace c) eqn:Hc.
    + case_decide.
      * by apply IH.
      * intros [->|Ht]%elem_of_cons; [done|]. by apply (IH EmptyString).
    + apply IH. rewrite has_space_app, Htok. simpl. by rewrite Hc.
Qed.

Lemma split_token (s t : string) :
  t ∈ split s → t ≠ EmptyString ∧ has_space t = false.
Proof. by apply split_from_token. Qed.

(** ** Search results depend on postings only *)

Lemma search_result_elem (h : set_heap) (ix : InvertedIndex) (ws : list string) (x : Z) :
  index_wf h ix →
  x ∈ search_result h ix ws ↔ ws ≠ [] ∧ ∀ w, w ∈ ws → x ∈ posting h ix w.
Proof.
  intros Hwf. pose proof (InvertedIndex_search_value h ix ws x Hwf) as Hv.
  unfold search_result. by destruct (InvertedIndex_search h ix ws).
Qed.

Lemma search_result_ext (h1 h2 : set_heap) (ix1 ix2 : InvertedIndex) (ws1 ws2 : list string) :
  index_wf h1 ix1 → index_wf h2 ix2 →
  (∀ w, w ∈ ws1 ↔ w ∈ ws2) →
  (∀ w, w ∈ ws1 → posting h1 ix1 w = posting h2 ix2 w) →
  search_result h1 ix1 ws1 = search_result h2 ix2 ws2.
Proof.
  intros Hwf1 Hwf2 Hws Hp. apply set_eq. intros x.
  rewrite !search_result_elem by done.
  assert (ws1 ≠ [] ↔ ws2 ≠ []) as Hne.
  { destruct ws1 as [|a ws1], ws2 as [|b ws2]; try done.
    - assert (b ∈ ([] : list string)) as ?%elem_of_nil by (apply Hws; by left). done.
    - assert (a ∈ ([] : list string)) as ?%elem_of_nil by (apply Hws; by left). done. }
  rewrite Hne. split; intros [? Hall]; (split; [done|]); intros w Hw.
  - rewrite <- Hp by by apply Hws. by apply Hall, Hws.
  - rewrite Hp by done. by apply Hall, Hws.
Qed.

Lemma materialize_ext (d1 d2 : Dataset) (ids : list Z) :
  documents d1 = documents d2 → materialize d1 ids = materialize d2 ids.
Proof.
  intros Hdoc. induction ids as [|id ids IH]; simpl; [done|].
  unfold gte_document_by_id. by rewrite Hdoc, IH.
Qed.

Lemma search_fst (o : SetOrder) (st : State) (name q : string) (k : option string)
    (d : Dataset) :
  datasets (engine st) !! name = Some d →
  (App.search o st name q k).1
  = match materialize d
            (set_iter o (search_result (heap st) (inverted_index d) (split (lower q)))) with
    | Raises err => Raises err
    | Returns results =>
        if truthy k
        then App.sort_with (sort_strategy (engine st)) results (default EmptyString k)
        else Returns results
    end.
Proof.
  intros Hd. unfold App.search, search_result. rewrite Hd.
  destruct (InvertedIndex_search _ _ _) as [r h']. simpl.
  destruct (materialize _ _); [|done]. by destruct (truthy k).
Qed.

(** Two states answer a search alike when the dataset holds the same
    documents and the same postings for the query terms in both. *)
Lemma search_fst_ext (o : SetOrder) (st1 st2 : State) (name q1 q2 : string)
    (k : option string) (d1 d2 : Dataset) :
  datasets (engine st1) !! name = Some d1 → datasets (engine st2) !! name = Some d2 →
  documents d1 = documents d2 →
  sort_strategy (engine st1) = sort_strategy (engine st2) →
  index_wf (heap st1) (inverted_index d1) → index_wf (heap st2) (inverted_index d2) →
  (∀ w, w ∈ split (lower q1) ↔ w ∈ split (lower q2)) →
  (∀ w, w ∈ split (lower q1) →
        posting (heap st1) (inverted_index d1) w = posting (heap st2) (inverted_index d2) w) →
  (App.search o st1 name q1 k).1 = (App.search o st2 name q2 k).1.
Proof.
  intros Hd1 Hd2 Hdocs Hs Hwf1 Hwf2 Hws Hp.
  rewrite (search_fst o st1 name q1 k d1 Hd1), (search_fst o st2 name q2 k d2 Hd2).
  rewrite (search_result_ext _ (heap st2) _ (inverted_index d2) _ (split (lower q2)))
    by done.
  by rewrite (materialize_ext d1 d2), Hs.
Qed.

(** ** What a search returns *)

Lemma search_results_spec (o : SetOrder) (st : State) (name q : string) (d : Dataset) :
  state_inv st → datasets (engine st) !! name = Some d →
  ∃ pre,
    (∀ k, (App.search o st name q k).1
          = Returns (if truthy k then sorted (sort_key (default EmptyString k)) pre
                     else pre))
    ∧ (∀ k, (Main.search o st name q k).1 = Returns pre)
    ∧ NoDup pre
    ∧ ∀ doc, mkSearchResult doc ∈ pre
             ↔ (∃ id, documents d !! id = Some doc)
               ∧ split (lower q) ≠ []
               ∧ ∀ t, t ∈ split (lower q) → t ∈ split (content doc).
Proof.
  intros I Hd.
  destruct (search_returns o st name q d I Hd) as (pre & HF & HA & HM).
  destruct (search_matches o st name q d pre I Hd HF) as [Hstored Hiff].
  exists pre. split_and!; try done.
  - apply NoDup_alt. intros i j r Hi Hj.
    destruct (Forall2_lookup_r _ _ _ _ _ HF Hi) as (id1 & Hid1 & Hdoc1).
    destruct (Forall2_lookup_r _ _ _ _ _ HF Hj) as (id2 & Hid2 & Hdoc2).
    destruct (inv_ids _ I name d id1 _ Hd Hdoc1) as (_ & E1 & _).
    destruct (inv_ids _ I name d id2 _ Hd Hdoc2) as (_ & E2 & _).
    assert (NoDup (set_iter o (search_result (heap st) (inverted_index d)
                                 (split (lower q))))) as Hnd.
    { rewrite set_iter_perm. apply NoDup_elements. }
    eapply (proj1 (NoDup_alt _) Hnd); [exact Hid1|]. by rewrite <- E1, E2.
  - intros doc. split.
    + intros Hin. destruct (Hstored _ Hin) as [id Hdoc]. simpl in Hdoc.
      split; [eauto|]. by apply (Hiff id doc Hdoc).
    + intros ([id Hdoc] & Hne & Hall). by apply (Hiff id doc Hdoc).
Qed.

Lemma query_matches_stored (o : SetOrder) (st : State) (name q : string) (d : Dataset)
    (id : Z) (doc : Document) :
  state_inv st → datasets (engine st) !! name = Some d → documents d !! id = Some doc →
  query_matches o st name q doc
  ↔ split (lower q) ≠ [] ∧ ∀ t, t ∈ split (lower q) → t ∈ split (content doc).
Proof.
  intros I Hd Hdoc.
  destruct (search_results_spec o st name q d I Hd) as (pre & HA & _ & _ & Hiff).
  unfold query_matches. rewrite (HA None). simpl. split.
  - intros (rs & [= <-] & Hin). by apply Hiff in Hin as (_ & ? & ?).
  - intros [??]. exists pre. split; [done|]. apply Hiff. eauto.
Qed.



(** ** Operations on one dataset and searches of another *)

Lemma insert_document_frame (st : State) (name c : string) (m : gmap string string)
    (name' : string) (d' : Dataset) (t : string) :
  state_inv st → name' ≠ name → datasets (engine st) !! name' = Some d' →
  let st' := (App.insert_document st name c m).2 in
  datasets (engine st') !! name' = Some d'
  ∧ sort_strategy (engine st') = sort_strategy (engine st)
  ∧ posting (heap st') (inverted_index d') t = posting (heap st) (inverted_index d') t.
Proof.
  intros I Hne Hd'. destruct (datasets (engine st) !! name) as [d|] eqn:Hd; cycle 1.
  { unfold App.insert_document. by rewrite Hd. }
  rewrite (insert_document_unfold _ _ _ _ _ Hd). simpl.
  destruct (inv_wf _ I name d Hd) as [Hwf Hinj].
  pose proof (InvertedIndex_addDocument_grows (next_doc_id (engine st)) (lower c)
                _ _ Hwf Hinj) as G.
  destruct (InvertedIndex_addDocument _ _ _ _) as [h' ix']. simpl in *.
  split_and!; [by rewrite lookup_insert_ne|done|].
  unfold posting. destruct (index (inverted_index d') !! t) as [l|] eqn:Hl; [|done].
  unfold set_at. rewrite (grows_frame _ _ _ _ _ _ G); [done| |].
  - by apply (inv_wf _ I name' d' Hd') in Hl.
  - intros t' Hl'. apply Hne. symmetry. by eapply (inv_sep _ I name name' d d' t' t l).
Qed.

(** X3. Inserting a document into one dataset, or creating a dataset, does
    not change what any search of another dataset answers, for every query
    and sort key. *)
Theorem other_datasets_unaffected (o : SetOrder) (ops : list op)
    (name name' c q : string) (m : gmap string string) (k : option string) :
  let st := App.run o initial_state ops in
  name' ≠ name →
  (App.search o (App.insert_document st name c m).2 name' q k).1
  = (App.search o st name' q k).1
  ∧ (App.search o (create_dataset st name) name' q k).1 = (App.search o st name' q k).1.
Proof.
  intros st Hne. pose proof (state_inv_reachable o ops) as I. fold st in I.
  pose proof (state_inv_insert_document st name c m I) as I1.
  pose proof (state_inv_create_dataset st name I) as I2.
  destruct (datasets (engine st) !! name') as [d'|] eqn:Hd'.
  - split.
    + destruct (insert_document_frame st name c m name' d' EmptyString I Hne Hd')
        as (Hd1 & Hs & _).
      apply (search_fst_ext o _ st name' q q k d' d'); try done.
      * by apply (inv_wf _ I1 name' d').
      * by apply (inv_wf _ I name' d').
      * intros w _. by apply (insert_document_frame st name c m name' d' w I Hne Hd').
    + assert (datasets (engine (create_dataset st name)) !! name' = Some d'
              ∧ sort_strategy (engine (create_dataset st name)) = sort_strategy (engine st)
              ∧ heap (create_dataset st name) = heap st) as (Hd2 & Hs & Hh).
      { unfold create_dataset. destruct (datasets (engine st) !! name); [done|].
        simpl. by rewrite lookup_insert_ne. }
      apply (search_fst_ext o _ st name' q q k d' d'); try done.
      * by apply (inv_wf _ I2 name' d').
      * by apply (inv_wf _ I name' d').
      * intros w _. by rewrite Hh.
  - assert (datasets (engine (App.insert_document st name c m).2) !! name' = None) as H1.
    { unfold App.insert_document. destruct (datasets (engine st) !! name); [|done].
      destruct (Dataset_addDocument _ _ _ _). simpl. by rewrite lookup_insert_ne. }
    assert (datasets (engine (create_dataset st name)) !! name' = None) as H2.
    { unfold create_dataset. destruct (datasets (engine st) !! name); [done|].
      simpl. by rewrite lookup_insert_ne. }
    unfold App.search. by rewrite H1, H2, Hd'.
Qed.

Lemma other_datasets_unaffected_witness :
  let st := App.run ascending_order initial_state (hello_ops ++ [Create "e"])%list in
  "d" ≠ "e"
  ∧ (App.search ascending_order (App.insert_document st "e" "hello there" ∅).2
       "d" "hello" None).1
    = (App.search ascending_order st "d" "hello" None).1.
Proof.
  split; [done|].
  apply (other_datasets_unaffected ascending_order (hello_ops ++ [Create "e"])%list
           "e" "d" "hello there" "hello" ∅ None).
  done.
Defined.

(** X4. A search leaves no trace in later searches: after any search, every
    search (of the same or another dataset) answers what it would have
    answered without it. *)
Theorem search_does_not_affect_searches (o : SetOrder) (ops : list op)
    (name1 q1 name2 q2 : string) (k1 k2 : option string) :
  let st := App.run o initial_state ops in
  (App.search o (App.search o st name1 q1 k1).2 name2 q2 k2).1
  = (App.search o st name2 q2 k2).1.
Proof.
  intros st. pose proof (state_inv_reachable o ops) as I. fold st in I.
  pose proof (state_inv_search o st name1 q1 k1 I) as I1.
  destruct (search_frame o st name1 q1 k1) as [He Hh].
  destruct (datasets (engine st) !! name2) as [d|] eqn:Hd.
  - apply (search_fst_ext o _ st name2 q2 q2 k2 d d); try done.
    + by rewrite He.
    + by rewrite He.
    + by apply (inv_wf _ I1 name2 d); rewrite He.
    + by apply (inv_wf _ I name2 d).
    + intros w _. apply posting_subseteq; [|done]. by apply (inv_wf _ I name2 d).
  - unfold App.search at 1 3. by rewrite He, Hd.
Qed.

(** ** Inserting, then searching *)

(** X5. A document that was inserted is found by its own content used as the
    query, unless the content has no token; a document without tokens is
    stored but no query ever returns it. *)
Theorem inserted_document_is_found (o : SetOrder) (ops : list op) (name c : string)
    (m : gmap string string) (d : Dataset) :
  let st := App.run o initial_state ops in
  datasets (engine st) !! name = Some d →
  let st' := (App.insert_document st name c m).2 in
  let doc := Document_init (next_doc_id (engine st)) c m in
  (∃ d', datasets (engine st') !! name = Some d'
         ∧ documents d' !! next_doc_id (engine st) = Some doc)
  ∧ (query_matches o st' name c doc ↔ split (lower c) ≠ [])
  ∧ (split (lower c) = [] → ∀ q, ¬ query_matches o st' name q doc).
Proof.
  intros st Hd st' doc. pose proof (state_inv_reachable o ops) as I. fold st in I.
  pose proof (state_inv_insert_document st name c m I) as I'. fold st' in I'.
  assert (∃ d', datasets (engine st') !! name = Some d'
                ∧ documents d' !! next_doc_id (engine st) = Some doc) as (d' & Hd' & Hdoc).
  { unfold st'. rewrite (insert_document_unfold st name c m d Hd). simpl.
    eexists. rewrite lookup_insert_eq. split; [done|]. simpl. by rewrite lookup_insert_eq. }
  assert (∀ q, query_matches o st' name q doc
               ↔ split (lower q) ≠ [] ∧ ∀ t, t ∈ split (lower q) → t ∈ split (lower c))
    as Hiff by (intros q; by apply (query_matches_stored o st' name q d' _ doc I' Hd' Hdoc)).
  split_and!.
  - eauto.
  - rewrite Hiff. split; [by intros [??]|done].
  - intros Hc q [Hne Hall]%Hiff. rewrite Hc in Hall.
    destruct (split (lower q)) as [|t ts]; [done|].
    by apply (elem_of_nil t), Hall; left.
Qed.

Lemma inserted_document_is_found_witness :
  let st := App.run ascending_order initial_state [Create "d"] in
  ∃ d, datasets (engine st) !! "d" = Some d
       ∧ (query_matches ascending_order (App.insert_document st "d" "Hello World" ∅).2
            "d" "Hello World" (Document_init 1 "Hello World" ∅)
          ↔ split (lower "Hello World") ≠ []).
Proof.
  set (st := App.run ascending_order initial_state [Create "d"]).
  lookup_dataset st "d" Hd.
  eexists. split; [exact Hd|].
  exact (proj1 (proj2 (inserted_document_is_found ascending_order [Create "d"] "d"
                         "Hello World" ∅ _ Hd))).
Defined.

(** Stored documents stay stored. *)
Lemma exec_keeps_documents (o : SetOrder) (st : State) (c : op) (name : string)
    (d : Dataset) (id : Z) (doc : Document) :
  state_inv st → datasets (engine st) !! name = Some d → documents d !! id = Some doc →
  ∃ d', datasets (engine (App.exec o st c).2) !! name = Some d'
        ∧ documents d' !! id = Some doc.
Proof.
  intros I Hd Hdoc. destruct c as [n|n c m|n q k]; simpl.
  - unfold create_dataset. destruct (datasets (engine st) !! n) eqn:Hn; [eauto|].
    simpl. exists d. split; [|done]. rewrite lookup_insert_ne; [done|].
    intros <-. by rewrite Hd in Hn.
  - destruct (datasets (engine st) !! n) as [dn|] eqn:Hn; cycle 1.
    { unfold App.insert_document. rewrite Hn. eauto. }
    pose proof (insert_document_unfold st n c m dn Hn) as E. simpl in E.
    destruct (App.insert_document st n c m) as [r st']. injection E as -> ->. simpl.
    destruct (decide (n = name)) as [->|Hne].
    + rewrite Hd in Hn. injection Hn as <-.
      eexists. rewrite lookup_insert_eq. split; [done|]. simpl.
      rewrite lookup_insert_ne; [done|].
      destruct (inv_ids _ I name d id doc Hd Hdoc) as [? _]. lia.
    + exists d. by rewrite lookup_insert_ne.
  - destruct (search_frame o st n q k) as [He _].
    destruct (App.search o st n q k) as [r st']. simpl in *. rewrite He. eauto.
Qed.

Lemma run_keeps_documents (o : SetOrder) (ops : list op) (st : State) (name : string)
    (d : Dataset) (id : Z) (doc : Document) :
  state_inv st → datasets (engine st) !! name = Some d → documents d !! id = Some doc →
  ∃ d', datasets (engine (App.run o st ops)) !! name = Some d'
        ∧ documents d' !! id = Some doc.
Proof.
  revert st d. induction ops as [|c ops IH]; intros st d I Hd Hdoc; [eauto|].
  destruct (exec_keeps_documents o st c name d id doc I Hd Hdoc) as (d1 & Hd1 & Hdoc1).
  apply (IH _ d1); [by apply state_inv_exec|done|done].
Qed.

(** X6. Nothing is ever lost: a document that a query returns is still
    returned for that query after any further sequence of calls. *)
Theorem matches_persist (o : SetOrder) (ops ops' : list op) (name q : string)
    (doc : Document) :
  let st := App.run o initial_state ops in
  query_matches o st name q doc →
  query_matches o (App.run o st ops') name q doc.
Proof.
  intros st Hm. pose proof (state_inv_reachable o ops) as I. fold st in I.
  destruct (datasets (engine st) !! name) as [d|] eqn:Hd; cycle 1.
  { destruct Hm as (rs & Hrs & _). unfold App.search in Hrs. by rewrite Hd in Hrs. }
  destruct (search_results_spec o st name q d I Hd) as (pre & HA & _ & _ & Hiff).
  destruct Hm as (rs & Hrs & Hin). rewrite (HA None) in Hrs. injection Hrs as <-.
  apply Hiff in Hin as ([id Hdoc] & Hne & Hall).
  destruct (run_keeps_documents o ops' st name d id doc I Hd Hdoc) as (d' & Hd' & Hdoc').
  apply (query_matches_stored o _ name q d' id doc); [|done|done|done].
  by apply state_inv_run.
Qed.

Lemma matches_persist_witness :
  let st := App.run ascending_order initial_state hello_ops in
  let doc := mkDocument 1 "hello world" ∅ in
  query_matches ascending_order st "d" "hello" doc
  ∧ query_matches ascending_order
      (App.run ascending_order st [Insert "d" "Goodbye" ∅; Create "e"]) "d" "hello" doc.
Proof.
  assert (query_matches ascending_order
            (App.run ascending_order initial_state hello_ops) "d" "hello"
            (mkDocument 1 "hello world" ∅)) as Hm.
  { eexists. split; [by vm_compute|]. by left. }
  split; [exact Hm|].
  exact (matches_persist ascending_order hello_ops [Insert "d" "Goodbye" ∅; Create "e"]
           "d" "hello" _ Hm).
Defined.



(** X8. One query term that occurs in no document of the dataset empties the
    answer, whatever the other terms match; both files agree. *)
Theorem unindexed_term_collapses (o : SetOrder) (ops : list op) (name q t : string)
    (k : option string) (d : Dataset) :
  let st := App.run o initial_state ops in
  datasets (engine st) !! name = Some d →
  t ∈ split (lower q) →
  (∀ id doc, documents d !! id = Some doc → t ∉ split (content doc)) →
  (App.search o st name q k).1 = Returns []
  ∧ (Main.search o st name q k).1 = Returns [].
Proof.
  intros st Hd Ht Hnone.
  destruct (search_results_spec o st name q d (state_inv_reachable o ops) Hd)
    as (pre & HA & HM & _ & Hiff).
  assert (pre = []) as ->.
  { destruct pre as [|[doc] pre]; [done|].
    assert (mkSearchResult doc ∈ mkSearchResult doc :: pre) as Hin by by left.
    apply Hiff in Hin as ([id Hdoc] & _ & Hall).
    destruct (Hnone id doc Hdoc). by apply Hall. }
  rewrite (HA k), (HM k). split; [|done]. by destruct (truthy k).
Qed.

Lemma unindexed_term_collapses_witness :
  let st := App.run ascending_order initial_state hello_ops in
  ∃ d, datasets (engine st) !! "d" = Some d
       ∧ "moon" ∈ split (lower "hello moon")
       ∧ (App.search ascending_order st "d" "hello moon" None).1 = Returns [].
Proof.
  set (st := App.run ascending_order initial_state hello_ops).
  lookup_dataset st "d" Hd.
  assert ("moon" ∈ split (lower "hello moon")) as Ht by (right; left).
  eexists. split; [exact Hd|]. split; [exact Ht|].
  refine (proj1 (unindexed_term_collapses ascending_order hello_ops "d" "hello moon"
                   "moon" None _ Hd Ht _)).
  intros id doc Hdoc.
  assert (id = 1 ∧ doc = mkDocument 1 "hello world" ∅) as [-> ->].
  { revert Hdoc. vm_compute. destruct id as [|[]|]; try done. by intros [= <-]. }
  vm_compute. set_solver.
Defined.

(** X9. A dataset without documents answers every search with the empty
    list; in particular a dataset that was just created does. *)
Theorem empty_dataset_finds_nothing (o : SetOrder) (ops : list op) (name q : string)
    (k : option string) :
  let st := App.run o initial_state ops in
  (∀ d, datasets (engine st) !! name = Some d → documents d = ∅ →
        (App.search o st name q k).1 = Returns [])
  ∧ (datasets (engine st) !! name = None →
     (App.search o (create_dataset st name) name q k).1 = Returns []).
Proof.
  intros st. pose proof (state_inv_reachable o ops) as I. fold st in I.
  assert (∀ st' d, state_inv st' → datasets (engine st') !! name = Some d →
            documents d = ∅ → (App.search o st' name q k).1 = Returns []) as Hempty.
  { intros st' d I' Hd Hdocs.
    destruct (search_results_spec o st' name q d I' Hd) as (pre & HA & _ & _ & Hiff).
    assert (pre = []) as ->.
    { destruct pre as [|[doc] pre]; [done|].
      assert (mkSearchResult doc ∈ mkSearchResult doc :: pre) as Hin by by left.
      apply Hiff in Hin as ([id Hdoc] & _). by rewrite Hdocs, lookup_empty in Hdoc. }
    rewrite (HA k). by destruct (truthy k). }
  split.
  - intros d. by apply Hempty.
  - intros Hname. apply (Hempty _ createDataset).
    + by apply state_inv_create_dataset.
    + unfold create_dataset. rewrite Hname. simpl. by rewrite lookup_insert_eq.
    + done.
Qed.

(** ** [InvertedIndex.addDocument], continued *)

Lemma addDocument_posting (h : set_heap) (ix : InvertedIndex) (id : Z) (c t : string) :
  index_wf h ix → index_inj ix →
  let r := InvertedIndex_addDocument h ix id c in
  index_wf r.1 r.2 ∧ index_inj r.2
  ∧ posting r.1 r.2 t
    = if decide (t ∈ split (lower c)) then {[id]} ∪ posting h ix t else posting h ix t.
Proof.
  intros Hwf Hinj r.
  pose proof (InvertedIndex_addDocument_grows id c h ix Hwf Hinj) as G. fold r in G.
  split_and!; [apply G|apply G|].
  rewrite (grows_posting _ _ _ _ _ _ G). case_decide; set_solver.
Qed.

(** X10. [InvertedIndex.addDocument] adds the id to the posting set of each
    token of the lowercased content and to no other; the terms of the index
    afterwards are the earlier ones and the tokens; set objects the index
    does not refer to are untouched; no two terms come to share a set. *)
Theorem addDocument_spec (h : set_heap) (ix : InvertedIndex) (id : Z) (c : string) :
  index_wf h ix → index_inj ix →
  let '(h', ix') := InvertedIndex_addDocument h ix id c in
  (∀ t, posting h' ix' t
        = if decide (t ∈ split (lower c)) then {[id]} ∪ posting h ix t
          else posting h ix t)
  ∧ dom (index ix') = dom (index ix) ∪ list_to_set (split (lower c))
  ∧ index_wf h' ix' ∧ index_inj ix'
  ∧ (∀ l, l ∈ dom h → (∀ t, index ix !! t ≠ Some l) → h' !! l = h !! l).
Proof.
  intros Hwf Hinj.
  pose proof (InvertedIndex_addDocument_grows id c h ix Hwf Hinj) as G.
  pose proof (λ t, addDocument_posting h ix id c t Hwf Hinj) as P.
  destruct (InvertedIndex_addDocument h ix id c) as [h' ix']. simpl in *.
  split_and!; try apply G.
  - intros t. apply P.
  - apply set_eq. intros t. rewrite elem_of_union, elem_of_list_to_set, !elem_of_dom.
    split.
    + intros [l Hl]. destruct (grows_new _ _ _ _ _ _ G t l Hl) as [?|[_ ?]]; eauto.
    + intros [[l Hl]|Ht].
      * exists l. by apply (grows_old _ _ _ _ _ _ G).
      * destruct (P t) as (_ & _ & Hp). rewrite decide_True in Hp by done.
        unfold posting in Hp. destruct (index ix' !! t); [eauto|set_solver].
Qed.

Lemma addDocument_spec_witness :
  index_wf ∅ InvertedIndex_init ∧ index_inj InvertedIndex_init
  ∧ ∀ t, posting (InvertedIndex_addDocument ∅ InvertedIndex_init 7 "Hello World").1
             (InvertedIndex_addDocument ∅ InvertedIndex_init 7 "Hello World").2 t
         = if decide (t ∈ split (lower "Hello World"))
           then {[7]} ∪ posting ∅ InvertedIndex_init t
           else posting ∅ InvertedIndex_init t.
Proof.
  assert (index_wf ∅ InvertedIndex_init) as Hwf by (intros t l Hl; by vm_compute in Hl).
  assert (index_inj InvertedIndex_init) as Hinj by (intros t1 t2 l Hl; by vm_compute in Hl).
  split; [exact Hwf|]. split; [exact Hinj|].
  pose proof (addDocument_spec ∅ InvertedIndex_init 7 "Hello World" Hwf Hinj) as H.
  destruct (InvertedIndex_addDocument ∅ InvertedIndex_init 7 "Hello World") as [h' ix'].
  exact (proj1 H).
Defined.

(** X11. The postings after two additions do not depend on their order, and
    adding the same id with the same content twice is the same as adding it
    once. *)
Theorem addDocument_postings_commute (h : set_heap) (ix : InvertedIndex)
    (id1 id2 : Z) (c1 c2 t : string) :
  index_wf h ix → index_inj ix →
  let add id c (s : set_heap * InvertedIndex) := InvertedIndex_addDocument s.1 s.2 id c in
  posting (add id2 c2 (add id1 c1 (h, ix))).1 (add id2 c2 (add id1 c1 (h, ix))).2 t
  = posting (add id1 c1 (add id2 c2 (h, ix))).1 (add id1 c1 (add id2 c2 (h, ix))).2 t
  ∧ posting (add id1 c1 (add id1 c1 (h, ix))).1 (add id1 c1 (add id1 c1 (h, ix))).2 t
    = posting (add id1 c1 (h, ix)).1 (add id1 c1 (h, ix)).2 t.
Proof.
  intros Hwf Hinj add. unfold add. simpl.
  destruct (addDocument_posting h ix id1 c1 t Hwf Hinj) as (Hwf1 & Hinj1 & P1).
  destruct (addDocument_posting h ix id2 c2 t Hwf Hinj) as (Hwf2 & Hinj2 & P2).
  destruct (addDocument_posting _ _ id2 c2 t Hwf1 Hinj1) as (_ & _ & P12).
  destruct (addDocument_posting _ _ id1 c1 t Hwf2 Hinj2) as (_ & _ & P21).
  destruct (addDocument_posting _ _ id1 c1 t Hwf1 Hinj1) as (_ & _ & P11).
  simpl in *. rewrite P12, P21, P11, P1, P2.
  split; repeat case_decide; set_solver.
Qed.

Lemma addDocument_postings_commute_witness :
  index_wf ∅ InvertedIndex_init ∧ index_inj InvertedIndex_init
  ∧ posting (InvertedIndex_addDocument
               (InvertedIndex_addDocument ∅ InvertedIndex_init 1 "a b").1
               (InvertedIndex_addDocument ∅ InvertedIndex_init 1 "a b").2 2 "b c").1
            (InvertedIndex_addDocument
               (InvertedIndex_addDocument ∅ InvertedIndex_init 1 "a b").1
               (InvertedIndex_addDocument ∅ InvertedIndex_init 1 "a b").2 2 "b c").2 "b"
    = posting (InvertedIndex_addDocument
                 (InvertedIndex_addDocument ∅ InvertedIndex_init 2 "b c").1
                 (InvertedIndex_addDocument ∅ InvertedIndex_init 2 "b c").2 1 "a b").1
              (InvertedIndex_addDocument
                 (InvertedIndex_addDocument ∅ InvertedIndex_init 2 "b c").1
                 (InvertedIndex_addDocument ∅ InvertedIndex_init 2 "b c").2 1 "a b").2 "b".
Proof.
  assert (index_wf ∅ InvertedIndex_init) as Hwf by (intros t l Hl; by vm_compute in Hl).
  assert (index_inj InvertedIndex_init) as Hinj by (intros t1 t2 l Hl; by vm_compute in Hl).
  split; [exact Hwf|]. split; [exact Hinj|].
  exact (proj1 (addDocument_postings_commute ∅ InvertedIndex_init 1 2 "a b" "b c" "b"
                  Hwf Hinj)).
Defined.

(** ** [InvertedIndex.search], continued *)

(** X12. Searching for two non-empty term lists at once gives the
    intersection of the two separate searches, and every search result lies
    within the posting set of each of its terms. *)
Theorem search_concat (h : set_heap) (ix : InvertedIndex) (ws1 ws2 : list string) :
  index_wf h ix →
  (ws1 ≠ [] → ws2 ≠ [] →
   search_result h ix (ws1 ++ ws2) = search_result h ix ws1 ∩ search_result h ix ws2)
  ∧ (∀ t, t ∈ ws1 → search_result h ix ws1 ⊆ posting h ix t).
Proof.
  intros Hwf. split.
  - intros H1 H2. apply set_eq. intros x.
    rewrite elem_of_intersection, !search_result_elem by done.
    assert ((ws1 ++ ws2)%list ≠ []) by by destruct ws1.
    split.
    + intros [_ Hall]. split; (split; [done|]); intros w ?; apply Hall; set_solver.
    + intros [[_ Ha] [_ Hb]]. split; [done|].
      intros w [?|?]%elem_of_app; eauto.
  - intros t Ht x Hx. apply search_result_elem in Hx as [_ Hall]; [|done]. by apply Hall.
Qed.

Lemma search_concat_witness :
  index_wf abc_dataset.1 (inverted_index abc_dataset.2)
  ∧ search_result abc_dataset.1 (inverted_index abc_dataset.2) (["a"] ++ ["b"])
    = search_result abc_dataset.1 (inverted_index abc_dataset.2) ["a"]
      ∩ search_result abc_dataset.1 (inverted_index abc_dataset.2) ["b"].
Proof.
  assert (index_wf abc_dataset.1 (inverted_index abc_dataset.2)) as Hwf.
  { change (map_Forall (λ _ l, l ∈ dom abc_dataset.1) (index (inverted_index abc_dataset.2))).
    apply (bool_decide_unpack _). by vm_compute. }
  split; [exact Hwf|].
  by apply (proj1 (search_concat _ _ ["a"] ["b"] Hwf)).
Defined.

(** ** What the indexes hold *)

(** X13. In every reachable state each term stored in an index is a token of
    some stored document of that dataset whose id is in the term's posting
    set; the term is non-empty, lowercase and free of whitespace; and its
    posting set is a live object that no other term of any dataset shares. *)
Theorem indexed_terms_are_tokens (o : SetOrder) (ops : list op) (name t : string)
    (d : Dataset) (l : loc) :
  let st := App.run o initial_state ops in
  datasets (engine st) !! name = Some d →
  index (inverted_index d) !! t = Some l →
  (∃ id doc, documents d !! id = Some doc ∧ t ∈ split (content doc)
             ∧ id ∈ posting (heap st) (inverted_index d) t)
  ∧ t ≠ EmptyString ∧ has_space t = false ∧ lower t = t
  ∧ l ∈ dom (heap st)
  ∧ (∀ name' d' t', datasets (engine st) !! name' = Some d' →
       index (inverted_index d') !! t' = Some l → name' = name ∧ t' = t).
Proof.
  intros st Hd Hl. pose proof (state_inv_reachable o ops) as I. fold st in I.
  destruct (inv_dataset _ I name d Hd) as (HA & _ & HC).
  destruct (inv_wf _ I name d Hd) as [Hwf Hinj].
  assert (posting (heap st) (inverted_index d) t ≠ ∅) as Hne
    by (apply HC, elem_of_dom; eauto).
  apply set_choose_L in Hne as [id Hid].
  pose proof Hid as (doc & Hdoc & Ht & Hlow)%HA.
  destruct (split_token _ _ Ht) as [Hnonempty Hnospace].
  split_and!; try done.
  - eauto.
  - by apply (Hwf t).
  - intros name' d' t' Hd' Hl'.
    assert (name' = name) as -> by by eapply (inv_sep _ I name' name d' d t' t l).
    rewrite Hd in Hd'. injection Hd' as <-. split; [done|]. by apply (Hinj t' t l).
Qed.

Lemma indexed_terms_are_tokens_witness :
  let st := App.run ascending_order initial_state hello_ops in
  ∃ d l, datasets (engine st) !! "d" = Some d
         ∧ index (inverted_index d) !! "world" = Some l
         ∧ has_space "world" = false ∧ lower "world" = "world"
         ∧ l ∈ dom (heap st).
Proof.
  set (st := App.run ascending_order initial_state hello_ops).
  lookup_dataset st "d" Hd.
  set (d := default createDataset (datasets (engine st) !! "d")) in *.
  assert (index (inverted_index d) !! "world"
          = Some (default 1%positive (index (inverted_index d) !! "world"))) as Hl
    by (by vm_compute).
  destruct (indexed_terms_are_tokens ascending_order hello_ops "d" "world" d _ Hd Hl)
    as (_ & _ & Hs & Hlow & Hdom & _).
  eexists d, _. by split_and!.
Defined.

(** ** [KeySortStrategy.sort] *)

Lemma sorted_of_sorted {A : Type} (f : A → string) (l : list A) :
  StronglySorted (key_le f) l → sorted f l = l.
Proof.
  intros Hs. symmetry. apply sorted_unique; [done|]. done.
Qed.

Lemma equal_keys_sorted {A : Type} (f : A → string) (l : list A) (v : string) :
  (∀ x, x ∈ l → f x = v) → StronglySorted (key_le f) l.
Proof.
  induction l as [|x l IH]; intros Hv; constructor.
  - apply IH. intros y ?. apply Hv. by right.
  - apply Forall_forall. intros y Hy. unfold key_le, str_le.
    rewrite (Hv x), (Hv y) by (by (left + right)). apply str_lt_irrefl.
Qed.

(** X14. [KeySortStrategy.sort] of [src/app.py] always returns; the list it
    returns is in ascending order of the key values, holds the input's
    elements, keeps the input order among elements with equal key values, and
    is the only list with these properties.  [src/main.py]'s version returns
    the same list whenever the input is not empty. *)
Theorem key_sort_is_stable_sort (results : list SearchResult) (inp_key : string) :
  ∃ rs, App.KeySortStrategy_sort results inp_key = Returns rs
        ∧ StronglySorted (key_le (sort_key inp_key)) rs
        ∧ rs ≡ₚ results
        ∧ (∀ v, filter (λ r, sort_key inp_key r = v) rs
                = filter (λ r, sort_key inp_key r = v) results)
        ∧ (∀ rs', StronglySorted (key_le (sort_key inp_key)) rs' →
                  (∀ v, filter (λ r, sort_key inp_key r = v) rs'
                        = filter (λ r, sort_key inp_key r = v) results) →
                  rs' = rs)
        ∧ (results ≠ [] → Main.KeySortStrategy_sort results inp_key = Returns rs).
Proof.
  exists (sorted (sort_key inp_key) results). split_and!.
  - done.
  - apply sorted_sorted.
  - apply sorted_perm.
  - intros v. apply sorted_stable.
  - intros rs'. apply sorted_unique.
  - by destruct results.
Qed.

(** X15. Sorting by a key under which all results carry the same value, in
    particular a key that no document has, returns the list as it is; and
    sorting a list that is already in ascending key order changes nothing, so
    sorting twice by one key is the same as sorting once. *)
Theorem key_sort_keeps_sorted_input (results : list SearchResult) (inp_key : string) :
  ((∀ r, r ∈ results → meta_data (document r) !! inp_key = None) →
   App.KeySortStrategy_sort results inp_key = Returns results)
  ∧ (∀ v, (∀ r, r ∈ results → sort_key inp_key r = v) →
          App.KeySortStrategy_sort results inp_key = Returns results)
  ∧ (StronglySorted (key_le (sort_key inp_key)) results →
     App.KeySortStrategy_sort results inp_key = Returns results)
  ∧ App.KeySortStrategy_sort (sorted (sort_key inp_key) results) inp_key
    = App.KeySortStrategy_sort results inp_key.
Proof.
  unfold App.KeySortStrategy_sort.
  assert (∀ v, (∀ r, r ∈ results → sort_key inp_key r = v) →
               sorted (sort_key inp_key) results = results) as Heq.
  { intros v Hv. by apply sorted_of_sorted, (equal_keys_sorted _ _ v). }
  split_and!.
  - intros Hnone. f_equal. apply (Heq EmptyString). intros r Hr.
    unfold sort_key, get_key_value. by rewrite (Hnone r Hr).
  - intros v Hv. f_equal. by apply (Heq v).
  - intros Hs. f_equal. by apply sorted_of_sorted.
  - f_equal. apply sorted_of_sorted, sorted_sorted.
Qed.

(** ** One engine per process *)

(** X16. [SearchEngine()] always yields an instance, and the same one every
    time: the first call creates and initialises it, every later call returns
    that object without creating or re-initialising anything, whatever was
    done to the engine in between. *)
Theorem singleton_returns_same_instance (p : Process) :
  let '(r1, p1) := SingletonMeta_call p in
  ∃ l, r1 = Some l
       ∧ SingletonMeta_call p1 = (Some l, p1)
       ∧ (∀ e, let p2 := mkProcess (instances p1) (<[l := e]> (engines p1)) in
               SingletonMeta_call p2 = (Some l, p2))
       ∧ (instances p !! SearchEngine_class = None →
          (l ∉ dom (engines p)) ∧ engines p1 !! l = Some SearchEngine_init
          ∧ ∀ l', l' ≠ l → engines p1 !! l' = engines p !! l')
       ∧ (∀ l0, instances p !! SearchEngine_class = Some l0 → l = l0 ∧ p1 = p).
Proof.
  unfold SingletonMeta_call, SearchEngine_new.
  destruct (instances p !! SearchEngine_class) as [l0|] eqn:Hp; simpl.
  - rewrite Hp. exists l0. split_and!; try done.
    + by rewrite Hp.
    + intros e. simpl. by rewrite Hp.
    + by intros l [= <-].
  - rewrite lookup_insert_eq. exists (fresh (dom (engines p))). split_and!; try done.
    + simpl. by rewrite lookup_insert_eq.
    + intros e. simpl. by rewrite lookup_insert_eq.
    + intros _. split_and!.
      * apply is_fresh.
      * by rewrite lookup_insert_eq.
      * intros l' Hl'. by rewrite lookup_insert_ne.
Qed.

(** ** Metadata strings *)

Lemma append_char_assoc (a : string) (c : ascii) (b : string) :
  (a +:+ String c EmptyString) +:+ b = a +:+ String c b.
Proof.
  induction a as [|x a IH]; [done|].
  change (String x ((a +:+ String c EmptyString) +:+ b) = String x (a +:+ String c b)).
  by rewrite IH.
Qed.

Lemma append_empty_r (a : string) : a +:+ EmptyString = a.
Proof.
  induction a as [|x a IH]; [done|].
  change (String x (a +:+ EmptyString) = String x a). by rewrite IH.
Qed.

Lemma count_char_app (c : ascii) (a b : string) :
  count_char c (a +:+ b) = (count_char c a + count_char c b)%nat.
Proof.
  induction a as [|x a IH]; [done|].
  change (((if decide (x = c) then 1 else 0) + count_char c (a +:+ b))%nat
          = ((if decide (x = c) then 1 else 0) + count_char c a + count_char c b)%nat).
  rewrite IH. lia.
Qed.

Lemma split_on_from_app (sep : ascii) (tok a b : string) :
  split_on_from sep tok (a +:+ String sep b)
  = (split_on_from sep tok a ++ split_on sep b)%list.
Proof.
  revert tok. induction a as [|x a IH]; intros tok.
  - simpl. by rewrite decide_True.
  - change (split_on_from sep tok (String x (a +:+ String sep b))
            = (split_on_from sep tok (String x a) ++ split_on sep b)%list).
    simpl. case_decide; simpl; by rewrite IH.
Qed.

Lemma split_on_from_none (sep : ascii) (tok s : string) :
  count_char sep s = 0%nat → split_on_from sep tok s = [tok +:+ s].
Proof.
  revert tok. induction s as [|x s IH]; intros tok; simpl.
  - by rewrite append_empty_r.
  - case_decide; [done|]. intros Hs. rewrite IH by (simpl in Hs; lia).
    by rewrite append_char_assoc.
Qed.

Lemma split_on_from_length (sep : ascii) (tok s : string) :
  length (split_on_from sep tok s) = S (count_char sep s).
Proof.
  revert tok. induction s as [|x s IH]; intros tok; simpl; [done|].
  case_decide; simpl; by rewrite IH.
Qed.

Lemma dict_of_app (i : nat) (l1 l2 : list (list string)) (acc : gmap string string) :
  dict_of i (l1 ++ l2) acc
  = match dict_of i l1 acc with
    | inl e => inl e
    | inr m => dict_of (i + length l1) l2 m
    end.
Proof.
  revert i acc. induction l1 as [|item l1 IH]; intros i acc; simpl.
  - by rewrite Nat.add_0_r.
  - destruct item as [|k [|v [|]]]; try done.
    rewrite IH. by rewrite Nat.add_succ_r.
Qed.

Lemma split_on_length (sep : ascii) (s : string) :
  length (split_on sep s) = S (count_char sep s).
Proof. apply split_on_from_length. Qed.

(** [dict(...)] over the split items: it succeeds exactly when every item has
    one colon, and otherwise stops at the first item that has not. *)
Lemma dict_of_split (i : nat) (items : list string) (acc : gmap string string) :
  match dict_of i (map (split_on ":") items) acc with
  | inr _ => Forall (λ item, count_char ":" item = 1%nat) items
  | inl e =>
      ∃ j item, e = DictLengthError (i + j) (S (count_char ":" item))
                ∧ items !! j = Some item
                ∧ count_char ":" item ≠ 1%nat
                ∧ Forall (λ item, count_char ":" item = 1%nat) (take j items)
  end.
Proof.
  revert i acc. induction items as [|item items IH]; intros i acc; simpl; [done|].
  pose proof (split_on_length ":" item) as Hlen.
  destruct (split_on ":" item) as [|k [|v [|x rest]]] eqn:Hsplit; simpl in Hlen.
  - done.
  - exists 0%nat, item. rewrite Nat.add_0_r. split_and!; try done.
    + by rewrite <- Hlen.
    + lia.
  - specialize (IH (S i) (<[k := v]> acc)).
    destruct (dict_of (S i) (map (split_on ":") items) (<[k:=v]> acc)).
    + destruct IH as (j & item' & -> & Hj & Hne & Hpre).
      exists (S j), item'. rewrite Nat.add_succ_r. split_and!; try done.
      simpl. constructor; [lia|done].
    + constructor; [lia|done].
  - exists 0%nat, item. rewrite Nat.add_0_r. split_and!; try done.
    + simpl. by rewrite <- Hlen.
    + lia.
Qed.

(** X17. The metadata string of an upload is accepted exactly when each of
    its comma-separated items holds exactly one colon; otherwise the parse
    stops at the first item that does not, reporting its position and its
    number of pieces.  So an empty item (as after a trailing comma), an item
    without a colon and an item with two colons are all refused. *)
Theorem parse_metadata_accepts (metadata : string) :
  ((∃ m, parse_metadata metadata = inr m)
   ↔ Forall (λ item, count_char ":" item = 1%nat) (split_on "," metadata))
  ∧ (∀ e, parse_metadata metadata = inl e →
       ∃ j item, e = DictLengthError j (S (count_char ":" item))
                 ∧ split_on "," metadata !! j = Some item
                 ∧ count_char ":" item ≠ 1%nat
                 ∧ Forall (λ item, count_char ":" item = 1%nat)
                     (take j (split_on "," metadata))).
Proof.
  pose proof (dict_of_split 0 (split_on "," metadata) ∅) as H.
  unfold parse_metadata. destruct (dict_of _ _ _) as [e|m].
  - destruct H as (j & item & -> & Hj & Hne & Hpre). split.
    + split; [by intros [m ?]|]. intros Hall. destruct Hne.
      by apply (proj1 (Forall_lookup _ _) Hall j item).
    + intros e [= <-]. by exists j, item.
  - split; [|done]. split; [done|eauto].
Qed.

(** X18. A key:value pair whose key and value hold neither comma nor colon
    parses to that one entry, and appending ",key:value" to an accepted
    metadata string adds that entry to its dictionary, replacing an earlier
    value of the key; appending it to a refused string does not repair it. *)
Theorem parse_metadata_pairs (s k v : string) :
  count_char "," k = 0%nat → count_char ":" k = 0%nat →
  count_char "," v = 0%nat → count_char ":" v = 0%nat →
  parse_metadata (k +:+ ":" +:+ v) = inr {[k := v]}
  ∧ (∀ m, parse_metadata s = inr m →
          parse_metadata (s +:+ "," +:+ k +:+ ":" +:+ v) = inr (<[k := v]> m))
  ∧ (∀ e, parse_metadata s = inl e →
          parse_metadata (s +:+ "," +:+ k +:+ ":" +:+ v) = inl e).
Proof.
  intros Hk1 Hk2 Hv1 Hv2.
  assert (split_on "," (k +:+ ":" +:+ v) = [k +:+ ":" +:+ v]) as Hitem.
  { unfold split_on. rewrite split_on_from_none; [done|].
    rewrite count_char_app. change (":" +:+ v) with (String ":" v).
    cbn [count_char]. rewrite decide_False by done. rewrite Hk1, Hv1. done. }
  assert (split_on ":" (k +:+ ":" +:+ v) = [k; v]) as Hpair.
  { unfold split_on. change (":" +:+ v) with (String ":" v).
    rewrite split_on_from_app. unfold split_on. by rewrite !split_on_from_none. }
  assert (∀ i acc, dict_of i (map (split_on ":") (split_on "," (k +:+ ":" +:+ v))) acc
                   = inr (<[k := v]> acc)) as Hone.
  { intros i acc. rewrite Hitem. simpl. by rewrite Hpair. }
  assert (∀ r, parse_metadata s = r →
               parse_metadata (s +:+ "," +:+ k +:+ ":" +:+ v)
               = match r with inl e => inl e | inr m => inr (<[k := v]> m) end) as Happ.
  { intros r <-. unfold parse_metadata.
    change ("," +:+ k +:+ ":" +:+ v) with (String "," (k +:+ ":" +:+ v)).
    assert (split_on "," (s +:+ String "," (k +:+ ":" +:+ v))
            = (split_on "," s ++ split_on "," (k +:+ ":" +:+ v))%list) as ->
      by apply split_on_from_app.
    rewrite map_app, dict_of_app.
    destruct (dict_of 0 (map (split_on ":") (split_on "," s)) ∅); [done|]. apply Hone. }
  split_and!.
  - unfold parse_metadata. rewrite Hone. by rewrite insert_empty.
  - intros m Hm. by rewrite (Happ _ Hm).
  - intros e He. by rewrite (Happ _ He).
Qed.

Lemma parse_metadata_pairs_witness :
  parse_metadata "date:2024-08-20" = inr {["date" := "2024-08-20"]}
  ∧ parse_metadata "date:2024-08-20,author:Alice"
    = inr (<["author" := "Alice"]> {["date" := "2024-08-20"]}).
Proof.
  split.
  - apply (parse_metadata_pairs "" "date" "2024-08-20"); reflexivity.
  - apply (parse_metadata_pairs "date:2024-08-20" "author" "Alice"); reflexivity.
Defined.

(** ** Request handlers *)

Lemma insert_document_registered (st : State) (name c : string) (m : gmap string string) :
  is_Some (datasets (engine st) !! name) →
  (App.insert_document st name c m).1 = Returns tt
  ∧ next_doc_id (engine (App.insert_document st name c m).2) = next_doc_id (engine st) + 1.
Proof.
  intros [d Hd]. by rewrite (insert_document_unfold st name c m d Hd).
Qed.

Lemma truthy_Some (s : string) : s ≠ EmptyString → truthy (Some s) = true.
Proof. by destruct s. Qed.

Lemma unknown_false (st : State) (dataset_name : option string) :
  Routes.unknown st dataset_name = false
  ↔ ∃ name, dataset_name = Some name ∧ name ≠ EmptyString
            ∧ is_Some (datasets (engine st) !! name).
Proof.
  unfold Routes.unknown. rewrite orb_false_iff, negb_false_iff, bool_decide_eq_false.
  split.
  - intros [Ht Hd]. destruct dataset_name as [[|a name]|]; try done.
    exists (String a name). split_and!; [done|done|]. simpl in Hd.
    by destruct (datasets (engine st) !! String a name).
  - intros (name & -> & Hne & [d Hd]). destruct name; [done|]. simpl. by rewrite Hd.
Qed.

(** X19. [/upload_document] answers 200, 400 or 500; it changes the state
    only when it answers 200, and then exactly by one [insert_document] with
    the parsed metadata, using one document id.  It answers 200 exactly when
    the dataset name is given and registered, content and metadata are given
    and non-empty, and the metadata string is accepted; it answers 500
    exactly when all but the last hold. *)
Theorem upload_document_atomic (st : State) (dataset_name content metadata : option string) :
  let '((body, status), st') := Routes.upload_document st dataset_name content metadata in
  let checks := Routes.unknown st dataset_name = false
                ∧ truthy content = true ∧ truthy metadata = true in
  (status = 200 ∨ status = 400 ∨ status = 500)
  ∧ (status ≠ 200 → st' = st)
  ∧ (status = 200
     ↔ checks ∧ ∃ m, parse_metadata (default EmptyString metadata) = inr m)
  ∧ (status = 500
     ↔ checks ∧ ∃ e, parse_metadata (default EmptyString metadata) = inl e)
  ∧ (∀ m, status = 200 → parse_metadata (default EmptyString metadata) = inr m →
          st' = (App.insert_document st (default EmptyString dataset_name)
                   (default EmptyString content) m).2
          ∧ next_doc_id (engine st') = next_doc_id (engine st) + 1).
Proof.
  unfold Routes.upload_document.
  destruct (Routes.unknown st dataset_name) eqn:Hu.
  { split_and!; try done; try (by right; left);
      (split; [done|by intros [(? & ? & ?) ?]]). }
  destruct (truthy content) eqn:Hc; cycle 1.
  { simpl. split_and!; try done; try (by right; left);
      (split; [done|by intros [(? & ? & ?) ?]]). }
  destruct (truthy metadata) eqn:Hm; cycle 1.
  { simpl. split_and!; try done; try (by right; left);
      (split; [done|by intros [(? & ? & ?) ?]]). }
  simpl. destruct (parse_metadata (default EmptyString metadata)) as [e|m] eqn:Hp.
  { split_and!; try done; try (by right; right).
    - split; [done|]. by intros [_ [m ?]].
    - split; [|done]. intros _. split; [done|eauto]. }
  apply unknown_false in Hu as (name & -> & Hne & Hreg). simpl.
  destruct (insert_document_registered st name (default EmptyString content) m Hreg)
    as [Hr Hn].
  destruct (App.insert_document st name (default EmptyString content) m) as [r st']
    eqn:Hins.
  simpl in *. subst r.
  split_and!; try done; try (by left).
  - split; [|done]. intros _. split; [done|eauto].
  - split; [by intros [=]|]. by intros [_ [e ?]].
  - intros m' _ [= <-]. rewrite Hins. split; [reflexivity|exact Hn].
Qed.

(** Every state the handlers produce is produced by engine calls. *)
Lemma handle_exec (o : SetOrder) (st : State) (r : request) :
  ∃ ops, (Routes.handle o st r).2 = App.run o st ops.
Proof.
  destruct r as [n|n c m|n q k]; simpl.
  - unfold Routes.create_dataset. destruct (truthy n).
    + by exists [Create (default EmptyString n)].
    + by exists [].
  - unfold Routes.upload_document.
    destruct (Routes.unknown st n); [by exists []|].
    destruct (negb (truthy c) || negb (truthy m)); [by exists []|].
    destruct (parse_metadata _) as [e|md]; [by exists []|].
    exists [Insert (default EmptyString n) (default EmptyString c) md].
    unfold App.run, run_with. simpl. by destruct (App.insert_document _ _ _ _) as [[] ?].
  - unfold Routes.search.
    destruct (Routes.unknown st n); [by exists []|].
    destruct q as [q|]; [|by exists []].
    exists [Query (default EmptyString n) q k].
    unfold App.run, run_with. simpl. by destruct (App.search _ _ _ _ _) as [[] ?].
Qed.

Lemma run_app (o : SetOrder) (st : State) (ops1 ops2 : list op) :
  App.run o (App.run o st ops1) ops2 = App.run o st (ops1 ++ ops2).
Proof. unfold App.run, run_with. by rewrite fold_left_app. Qed.

Lemma serve_run (o : SetOrder) (rs : list request) (st : State) :
  ∃ ops, Routes.serve o st rs = App.run o st ops.
Proof.
  revert st. induction rs as [|r rs IH]; intros st; [by exists []|].
  destruct (handle_exec o st r) as [ops1 H1].
  destruct (IH (Routes.handle o st r).2) as [ops2 H2].
  exists (ops1 ++ ops2)%list. rewrite <- run_app, <- H1. exact H2.
Qed.

(** X20. Whatever requests [/create_dataset], [/upload_document] and
    [/search] receive, the state of the engine is one that a sequence of
    [create_dataset], [insert_document] and [search] calls produces; so every
    dataset keeps its invariant, and the ids in use are exactly those below
    [next_doc_id]. *)
Theorem serve_reaches_engine_states (o : SetOrder) (rs : list request) :
  let st := Routes.serve o initial_state rs in
  (∃ ops, st = App.run o initial_state ops)
  ∧ (∀ name d, datasets (engine st) !! name = Some d → dataset_invariant (heap st) d)
  ∧ (∀ id, (∃ name d, datasets (engine st) !! name = Some d ∧ id ∈ dom (documents d))
           ↔ (1 ≤ id < next_doc_id (engine st))%Z).
Proof.
  intros st. destruct (serve_run o rs initial_state) as [ops Hops]. fold st in Hops.
  pose proof (state_inv_reachable o ops) as I. rewrite <- Hops in I.
  split_and!.
  - eauto.
  - apply I.
  - intros id. split.
    + intros (name & d & Hd & [doc Hdoc]%elem_of_dom).
      by destruct (inv_ids _ I name d id doc Hd Hdoc) as [? _].
    + apply I.
Qed.

(** X21. In a state reached through these handlers, [/search] answers 400
    exactly when the dataset name is missing, empty or not registered, 500
    exactly when the name is fine and [search_patterns] is missing, and 200
    otherwise, with the content and metadata of what the engine's [search]
    returns; it never changes the engine. *)
Theorem route_search_statuses (o : SetOrder) (rs : list request)
    (dataset_name search_patterns order_by_key : option string) :
  let st := Routes.serve o initial_state rs in
  let '((body, status), st') :=
    Routes.search o st dataset_name search_patterns order_by_key in
  engine st' = engine st
  ∧ heap st ⊆ heap st'
  ∧ (status = 400 ↔ Routes.unknown st dataset_name = true)
  ∧ (status = 500 ↔ Routes.unknown st dataset_name = false ∧ search_patterns = None)
  ∧ (status = 200 ↔ Routes.unknown st dataset_name = false ∧ is_Some search_patterns)
  ∧ (∀ patterns, Routes.unknown st dataset_name = false → search_patterns = Some patterns →
       ∃ results,
         (App.search o st (default EmptyString dataset_name) patterns order_by_key).1
         = Returns results
         ∧ body = JsonResults (map (λ r, (content (document r), meta_data (document r)))
                                 results)).
Proof.
  intros st. destruct (serve_run o rs initial_state) as [ops Hops]. fold st in Hops.
  pose proof (state_inv_reachable o ops) as I. rewrite <- Hops in I.
  unfold Routes.search. destruct (Routes.unknown st dataset_name) eqn:Hu.
  { split_and!; try done; (split; [lia|by intros [??]]). }
  destruct search_patterns as [q|]; cycle 1.
  { split_and!; try done; (split; [lia|]); first [done|by intros [_ [??]]]. }
  apply unknown_false in Hu as (name & -> & Hne & [d Hd]). simpl.
  destruct (search_results_spec o st name q d I Hd) as (pre & HA & _).
  destruct (search_frame o st name q order_by_key) as [He Hh].
  specialize (HA order_by_key).
  destruct (App.search o st name q order_by_key) as [r st'] eqn:Hsearch.
  simpl in *. subst r.
  split_and!; try done.
  - split; [lia|by intros [_ ?]].
  - intros patterns _ [= <-]. rewrite Hsearch. eauto.
Qed.

(** X22. A document uploaded through [/upload_document] is served by
    [/search] when its own content is the query: the answer is 200 and its
    results hold the lowercased content with the parsed metadata, provided
    the content has at least one token. *)
Theorem uploaded_document_is_served (o : SetOrder) (rs : list request)
    (name c metadata : string) (m : gmap string string) (k : option string) :
  let st := Routes.serve o initial_state rs in
  name ≠ EmptyString → is_Some (datasets (engine st) !! name) →
  c ≠ EmptyString → split (lower c) ≠ [] →
  metadata ≠ EmptyString → parse_metadata metadata = inr m →
  let st1 := (Routes.upload_document st (Some name) (Some c) (Some metadata)).2 in
  ∃ results st2,
    Routes.search o st1 (Some name) (Some c) k = ((JsonResults results, 200), st2)
    ∧ (lower c, m) ∈ results.
Proof.
  intros st Hname [d Hd] Hcontent Htokens Hmeta Hparse st1.
  destruct (serve_run o rs initial_state) as [ops Hops]. fold st in Hops.
  pose proof (state_inv_reachable o ops) as I. rewrite <- Hops in I.
  assert (st1 = (App.insert_document st name c m).2) as Hst1.
  { unfold st1, Routes.upload_document.
    assert (Routes.unknown st (Some name) = false) as -> by (apply unknown_false; eauto).
    rewrite !truthy_Some by done. simpl. rewrite Hparse.
    destruct (insert_document_registered st name c m) as [Hr _]; [eauto|].
    by destruct (App.insert_document st name c m) as [[] ?]. }
  pose proof (state_inv_insert_document st name c m I) as I1. rewrite <- Hst1 in I1.
  set (doc := Document_init (next_doc_id (engine st)) c m).
  assert (∃ d1, datasets (engine st1) !! name = Some d1
                ∧ documents d1 !! next_doc_id (engine st) = Some doc) as (d1 & Hd1 & Hdoc).
  { rewrite Hst1, (insert_document_unfold st name c m d Hd). simpl.
    eexists. rewrite lookup_insert_eq. split; [done|]. simpl. by rewrite lookup_insert_eq. }
  destruct (search_results_spec o st1 name c d1 I1 Hd1) as (pre & HA & _ & _ & Hiff).
  assert (mkSearchResult doc ∈ pre) as Hin by (apply Hiff; split_and!; eauto).
  unfold Routes.search.
  assert (Routes.unknown st1 (Some name) = false) as -> by (apply unknown_false; eauto).
  simpl. specialize (HA k).
  destruct (App.search o st1 name c k) as [r st2]. simpl in HA. subst r.
  eexists _, st2. split; [done|].
  apply (list_elem_of_fmap_2 (λ r, (content (document r), meta_data (document r)))
           _ (mkSearchResult doc)).
  destruct (truthy k); [by rewrite sorted_perm|done].
Qed.

Lemma uploaded_document_is_served_witness :
  let st := Routes.serve ascending_order initial_state [PostCreateDataset (Some "blogs")] in
  ∃ results st2,
    Routes.search ascending_order
      (Routes.upload_document st (Some "blogs") (Some "Design Pattern")
         (Some "date:2024-08-20")).2
      (Some "blogs") (Some "Design Pattern") (Some "date")
    = ((JsonResults results, 200), st2)
    ∧ ("design pattern", {["date" := "2024-08-20"]}) ∈ results.
Proof.
  apply (uploaded_document_is_served ascending_order [PostCreateDataset (Some "blogs")]
           "blogs" "Design Pattern" "date:2024-08-20" {["date" := "2024-08-20"]}
           (Some "date")); done.
Defined.
